(** * open-webSearch: the transport/session multiplexer and the configuration
      loader, embedded from [src/index.ts] and [src/config.ts].

    The HTTP handlers of [main] are written as functions on an explicit
    server state (the two [transports] tables and the transport objects
    they point to).  What the MCP SDK and the Node runtime decide is
    supplied from outside as an oracle: the 128 bits behind each
    [randomUUID()] call, and the callbacks an endpoint fires while it
    handles a request. *)

From stdpp Require Import base gmap list strings pretty.
From Stdlib Require Import ZArith NArith Ascii.

Local Open Scope nat_scope.

(** ** JavaScript values the handlers rely on *)

Module Js.

(** A parsed JSON document ([express.json()] bodies, [res.json] payloads). *)
Local Unset Elimination Schemes.
Inductive Json :=
| JNull
| JBool (b : bool)
| JNum (n : Z)
| JStr (s : string)
| JArr (items : list Json)
| JObj (fields : list (string * Json)).
Local Set Elimination Schemes.

(** [!!x] for a value of type [string | undefined]: the empty string and
    [undefined] are falsy. *)
Definition truthy (x : option string) : bool :=
  match x with
  | Some s => negb (String.eqb s "")
  | None => false
  end.

(** Property keys are strings: [obj[undefined]] reads the key
    ["undefined"]. *)
Definition property_key (x : option string) : string :=
  match x with
  | Some s => s
  | None => "undefined"
  end.

(** The members every object literal [{}] inherits from
    [Object.prototype]. *)
Definition object_prototype_keys : list string :=
  [ "constructor"; "__defineGetter__"; "__defineSetter__";
    "hasOwnProperty"; "__lookupGetter__"; "__lookupSetter__";
    "isPrototypeOf"; "propertyIsEnumerable"; "toString"; "valueOf";
    "__proto__"; "toLocaleString" ].

(** Result of a property read [obj[key]] on a table created as [{}]:
    an own entry, a member found on the prototype chain, or
    [undefined]. *)
Inductive PropertyValue (A : Type) :=
| Own (a : A)
| Inherited
| Undefined.
Arguments Own {A} a.
Arguments Inherited {A}.
Arguments Undefined {A}.

Definition get_property {A} (obj : gmap string A) (key : string)
  : PropertyValue A :=
  match obj !! key with
  | Some a => Own a
  | None =>
      if bool_decide (key ∈ object_prototype_keys)
      then Inherited else Undefined
  end.

(** Functions and objects are truthy, [undefined] is not. *)
Definition truthy_value {A} (v : PropertyValue A) : bool :=
  match v with
  | Undefined => false
  | _ => true
  end.

(** *** [randomUUID()] *)

Definition hex_digit (n : N) : ascii :=
  match (n mod 16)%N with
  | 0 => "0" | 1 => "1" | 2 => "2" | 3 => "3" | 4 => "4" | 5 => "5"
  | 6 => "6" | 7 => "7" | 8 => "8" | 9 => "9" | 10 => "a" | 11 => "b"
  | 12 => "c" | 13 => "d" | 14 => "e" | _ => "f"
  end%N%char.

(** The low [k] hexadecimal digits of [n], most significant first. *)
Fixpoint hex_fixed (k : nat) (n : N) : string :=
  match k with
  | O => ""
  | S k' => hex_fixed k' (n / 16)%N +:+ String (hex_digit n) ""
  end.

(** The textual form [8-4-4-4-12] of the 128 bits [u] drawn by the
    runtime. *)
Definition randomUUID (u : N) : string :=
  hex_fixed 8 (u / 16 ^ 24)%N +:+ "-" +:+
  hex_fixed 4 (u / 16 ^ 20)%N +:+ "-" +:+
  hex_fixed 4 (u / 16 ^ 16)%N +:+ "-" +:+
  hex_fixed 4 (u / 16 ^ 12)%N +:+ "-" +:+
  hex_fixed 12 u.

#[global] Arguments randomUUID : simpl never.
#[global] Arguments truthy : simpl never.

End Js.

(** ** The session multiplexer of [main] *)

Module Mux.
Import Js.

(** Transport objects live in a heap and are named by their position in it;
    the tables hold references, as the JavaScript objects do. *)
Inductive TransportKind :=
| StreamableHTTPServerTransport
| SSEServerTransport.

Record Transport := mkTransport {
  kind : TransportKind;
  sessionId : option string;   (* [transport.sessionId : string | undefined] *)
  initialized : bool           (* the endpoint has completed its handshake *)
}.

(** [const transports = { streamable: {}, sse: {} }] *)
Record Transports := mkTransports {
  streamable : gmap string nat;
  sse : gmap string nat
}.

Record Server := mkServer {
  transports : Transports;
  heap : list Transport
}.

Definition init : Server := mkServer (mkTransports ∅ ∅) [].

Definition set_streamable (f : gmap string nat → gmap string nat)
  (σ : Server) : Server :=
  mkServer (mkTransports (f (streamable (transports σ)))
                         (sse (transports σ)))
           (heap σ).

Definition set_sse (f : gmap string nat → gmap string nat)
  (σ : Server) : Server :=
  mkServer (mkTransports (streamable (transports σ))
                         (f (sse (transports σ))))
           (heap σ).

Definition set_heap (f : list Transport → list Transport)
  (σ : Server) : Server :=
  mkServer (transports σ) (f (heap σ)).

(** *** Requests and what a handler does with them *)

Record Request := mkRequest {
  mcp_session_id : option string;   (* [req.headers['mcp-session-id']] *)
  query_sessionId : option string;  (* [req.query.sessionId] *)
  body : Json                       (* [req.body] *)
}.

Inductive Payload :=
| JsonBody (j : Json)     (* [res.json(j)] *)
| TextBody (s : string).  (* [res.send(s)] *)

Inductive Method := HandleRequest | HandlePostMessage.

Inductive Outcome :=
| Sent (status : nat) (payload : Payload)
    (* [res.status(status)] followed by [json] or [send] *)
| Delegated (transport : nat) (m : Method)
    (* the request was handed to [transport.handleRequest] or
       [transport.handlePostMessage] *)
| StreamOpened (transport : nat)
    (* [server.connect(transport)] on a new event stream *)
| TypeError.
    (* the handler threw: the looked-up value has no such method *)

(** The body of the 400 answer of [app.post('/mcp')]. *)
Definition no_valid_session_id : Json :=
  JObj [ ("jsonrpc", JStr "2.0");
         ("error", JObj [ ("code", JNum (-32000));
                          ("message",
                           JStr "Bad Request: No valid session ID provided") ]);
         ("id", JNull) ].

(** *** The callbacks the source installs on an endpoint *)

(** [onsessioninitialized: (sessionId) =>
      { transports.streamable[sessionId] = transport; }] *)
Definition onsessioninitialized (transport : nat) (sid : string)
  (σ : Server) : Server :=
  set_streamable (<[sid := transport]>) σ.

(** [transport.onclose = () => { if (transport.sessionId)
      delete transports.streamable[transport.sessionId]; }] *)
Definition onclose (transport : nat) (σ : Server) : Server :=
  match heap σ !! transport with
  | Some o =>
      if truthy (sessionId o)
      then set_streamable (delete (property_key (sessionId o))) σ
      else σ
  | None => σ
  end.

(** [res.on("close", () => { delete transports.sse[transport.sessionId]; })] *)
Definition on_res_close (transport : nat) (σ : Server) : Server :=
  match heap σ !! transport with
  | Some o => set_sse (delete (property_key (sessionId o))) σ
  | None => σ
  end.

(** *** The SDK endpoint, as far as it reaches back into the tables

    While [transport.handleRequest] runs, the SDK may complete the
    handshake of an endpoint that has none yet (it draws the id with
    [sessionIdGenerator: () => randomUUID()], stores it in
    [transport.sessionId] and calls [onsessioninitialized] if the id is
    truthy), and it may close the endpoint (it calls [onclose]).  Which
    of these happen is the oracle [sdk].  [server.connect(transport)] is
    taken to return normally; it does not touch the tables. *)
Inductive SdkCall :=
| SessionInitialized (u : N)
| Close.

#[global] Instance SdkCall_eq_dec : EqDecision SdkCall.
Proof. solve_decision. Defined.

Definition sdk_call (transport : nat) (c : SdkCall) (σ : Server) : Server :=
  match c with
  | SessionInitialized u =>
      match heap σ !! transport with
      | Some o =>
          if initialized o then σ
          else
            let sid := randomUUID u in
            let σ' :=
              set_heap (<[transport := mkTransport (kind o) (Some sid) true]>)
                       σ in
            if truthy (Some sid)
            then onsessioninitialized transport sid σ'
            else σ'
      | None => σ
      end
  | Close => onclose transport σ
  end.

Definition handleRequest (transport : nat) (sdk : list SdkCall)
  (σ : Server) : Server :=
  foldl (λ σ' c, sdk_call transport c σ') σ sdk.

(** *** The route handlers *)

Section Handlers.

(** [isInitializeRequest] of the SDK's [types.js]. *)
Variable isInitializeRequest : Json → bool.

(** [app.post('/mcp', ...)] *)
Definition post_mcp (req : Request) (sdk : list SdkCall) (σ : Server)
  : Server * Outcome :=
  let sid := mcp_session_id req in
  let found := get_property (streamable (transports σ)) (property_key sid) in
  if truthy sid && truthy_value found then
    (* reuse existing transport *)
    match found with
    | Own transport =>
        (handleRequest transport sdk σ, Delegated transport HandleRequest)
    | _ => (σ, TypeError)
    end
  else if negb (truthy sid) && isInitializeRequest (body req) then
    (* new initialization request *)
    let transport := length (heap σ) in
    let σ' :=
      set_heap (λ h, h ++ [mkTransport StreamableHTTPServerTransport
                                       None false]) σ in
    (handleRequest transport sdk σ', Delegated transport HandleRequest)
  else
    (* invalid request *)
    (σ, Sent 400 (JsonBody no_valid_session_id)).

(** [handleSessionRequest], mounted on GET and DELETE [/mcp]. *)
Definition handleSessionRequest (req : Request) (sdk : list SdkCall)
  (σ : Server) : Server * Outcome :=
  let sid := mcp_session_id req in
  let found := get_property (streamable (transports σ)) (property_key sid) in
  if negb (truthy sid) || negb (truthy_value found) then
    (σ, Sent 400 (TextBody "Invalid or missing session ID"))
  else
    match found with
    | Own transport =>
        (handleRequest transport sdk σ, Delegated transport HandleRequest)
    | _ => (σ, TypeError)
    end.

(** [app.get('/sse', ...)]; [u] is what the constructor of
    [SSEServerTransport] draws for its session id. *)
Definition get_sse (u : N) (σ : Server) : Server * Outcome :=
  let transport := length (heap σ) in
  let sid := randomUUID u in
  let σ' :=
    set_heap (λ h, h ++ [mkTransport SSEServerTransport (Some sid) false])
             σ in
  (set_sse (<[sid := transport]>) σ', StreamOpened transport).

(** [app.post('/messages', ...)] *)
Definition post_messages (req : Request) (σ : Server) : Server * Outcome :=
  let sid := query_sessionId req in
  match get_property (sse (transports σ)) (property_key sid) with
  | Own transport => (σ, Delegated transport HandlePostMessage)
  | Inherited => (σ, TypeError)
  | Undefined => (σ, Sent 400 (TextBody "No transport found for sessionId"))
  end.

(** *** Everything that can happen to the server *)

Inductive Event :=
| PostMcp (req : Request) (sdk : list SdkCall)
| GetMcp (req : Request) (sdk : list SdkCall)
| DeleteMcp (req : Request) (sdk : list SdkCall)
| GetSse (u : N)
| PostMessages (req : Request)
| ResClose (transport : nat)
    (* the response of the [/sse] request that made [transport] closes *)
| TransportClose (transport : nat).
    (* the SDK closes a bidirectional endpoint outside any request *)

(** One event.  For a handler that throws, the step records the outcome
    [TypeError] and the tables as the handler left them; what the runtime
    then does with the rejected promise (by default Node ends the process
    on an unhandled rejection) is not part of the step, and a run that
    goes on after it stands for a runtime that survives. *)
Definition step (e : Event) (σ : Server) : Server * option Outcome :=
  match e with
  | PostMcp req sdk => prod_map id Some (post_mcp req sdk σ)
  | GetMcp req sdk => prod_map id Some (handleSessionRequest req sdk σ)
  | DeleteMcp req sdk => prod_map id Some (handleSessionRequest req sdk σ)
  | GetSse u => prod_map id Some (get_sse u σ)
  | PostMessages req => prod_map id Some (post_messages req σ)
  | ResClose transport =>
      match heap σ !! transport with
      | Some (mkTransport SSEServerTransport _ _) =>
          (on_res_close transport σ, None)
      | _ => (σ, None)
      end
  | TransportClose transport =>
      match heap σ !! transport with
      | Some (mkTransport StreamableHTTPServerTransport _ _) =>
          (onclose transport σ, None)
      | _ => (σ, None)
      end
  end.

Definition run (tr : list Event) (σ : Server) : Server :=
  foldl (λ σ' e, (step e σ').1) σ tr.

Definition reachable (σ : Server) : Prop := ∃ tr, run tr init = σ.

(** The session ids drawn for bidirectional endpoints during a trace. *)
Definition drawn_by_sdk (sdk : list SdkCall) : list string :=
  omap (λ c, match c with
             | SessionInitialized u => Some (randomUUID u)
             | Close => None
             end) sdk.

Definition drawn (e : Event) : list string :=
  match e with
  | PostMcp _ sdk | GetMcp _ sdk | DeleteMcp _ sdk => drawn_by_sdk sdk
  | _ => []
  end.

Definition drawn_in (tr : list Event) : list string := tr ≫= drawn.

End Handlers.

(** The state invariant of the multiplexer: every table entry names a live
    transport object of the table's own family that carries the entry's
    key as its session id, and every key was drawn by [randomUUID]. *)
Definition table_ok (k : TransportKind) (ready : bool)
  (tbl : gmap string nat) (h : list Transport) : Prop :=
  ∀ s t, tbl !! s = Some t →
    (∃ u, s = randomUUID u) ∧ h !! t = Some (mkTransport k (Some s) ready).

Definition consistent (σ : Server) : Prop :=
  table_ok StreamableHTTPServerTransport true
           (streamable (transports σ)) (heap σ)
  ∧ table_ok SSEServerTransport false (sse (transports σ)) (heap σ).

(** The member of an object under a key; of two bindings of one key the
    later counts, as [JSON.parse] has it. *)
Fixpoint member (k : string) (fields : list (string * Json)) : option Json :=
  match fields with
  | [] => None
  | (k', v) :: rest =>
      match member k rest with
      | Some v' => Some v'
      | None => if String.eqb k' k then Some v else None
      end
  end.

Definition string_member (k : string) (j : Json) : bool :=
  match j with
  | JObj fields =>
      match member k fields with
      | Some (JStr _) => true
      | _ => false
      end
  | _ => false
  end.

Definition object_member (k : string) (j : Json) : option Json :=
  match j with
  | JObj fields =>
      match member k fields with
      | Some (JObj inner) => Some (JObj inner)
      | _ => None
      end
  | _ => None
  end.

(** A stand-in for the SDK predicate [isInitializeRequest], used to run
    the handlers on concrete requests.  It asks for what the SDK's schema
    of an initialization request requires: the [method] ["initialize"] and
    a [params] object with a string [protocolVersion], an object
    [capabilities] and an object [clientInfo] that has a string [name]
    and a string [version]. *)
Definition initialize_request_shape (j : Json) : bool :=
  match j with
  | JObj fields =>
      match member "method" fields, object_member "params" j with
      | Some (JStr m), Some params =>
          String.eqb m "initialize"
          && string_member "protocolVersion" params
          && bool_decide (is_Some (object_member "capabilities" params))
          && match object_member "clientInfo" params with
             | Some info =>
                 string_member "name" info && string_member "version" info
             | None => false
             end
      | _, _ => false
      end
  | _ => false
  end.

(** The first message of a client, complete. *)
Definition initialize_body : Json :=
  JObj [ ("jsonrpc", JStr "2.0"); ("id", JNum 1);
         ("method", JStr "initialize");
         ("params",
          JObj [ ("protocolVersion", JStr "2025-03-26");
                 ("capabilities", JObj []);
                 ("clientInfo",
                  JObj [ ("name", JStr "example-client");
                         ("version", JStr "1.0.0") ]) ]) ].

Definition tools_call_body : Json :=
  JObj [("jsonrpc", JStr "2.0"); ("id", JNum 2); ("method", JStr "tools/call")].

(** Two draws of the id generator and an initialization request without a
    session header, for the examples. *)
Definition uuid_a : N := 0x123e4567e89b42d3a456426614174000.
Definition uuid_b : N := 0x9b2fd0c1a4e74f66b8d20c3e5a17f9aa.

Definition initialize_request : Request :=
  mkRequest None None initialize_body.

End Mux.

(** ** Configuration loading ([src/config.ts]) *)

Module Config.

(** The environment variables the module reads ([process.env.X] is a
    string or [undefined]). *)
Record Env := mkEnv {
  DEFAULT_SEARCH_ENGINE : option string;
  ALLOWED_SEARCH_ENGINES : option string;
  PROXY_URL : option string;
  USE_PROXY : option string;
  ENABLE_CORS : option string;
  CORS_ORIGIN : option string;
  MODE : option string
}.

Record AppConfig := mkAppConfig {
  defaultSearchEngine : string;
  allowedSearchEngines : list string;
  proxyUrl : string;
  useProxy : bool;
  enableCors : bool;
  corsOrigin : string;
  enableHttpServer : bool
}.

(** [x || d] on [string | undefined]. *)
Definition or_default (x : option string) (d : string) : string :=
  match x with
  | Some s => if Js.truthy x then s else d
  | None => d
  end.

(** [x === 'lit'] *)
Definition strict_eq (x : option string) (lit : string) : bool :=
  bool_decide (x = Some lit).

(** [Array.prototype.includes] on strings. *)
Definition includes (l : list string) (x : string) : bool :=
  bool_decide (x ∈ l).

(** [s.split(',')]: the pieces between commas, empty pieces kept. *)
Fixpoint split_comma (s : string) : list string :=
  match s with
  | EmptyString => [""]
  | String c s' =>
      if Ascii.eqb c ","
      then "" :: split_comma s'
      else match split_comma s' with
           | w :: ws => String c w :: ws
           | [] => [String c ""]
           end
  end.

(** White space as [String.prototype.trim] sees it, among the code units
    below 256: tab, line feed, vertical tab, form feed, carriage return,
    space and no-break space. *)
Definition is_white_space (c : ascii) : bool :=
  match c with
  | "009" | "010" | "011" | "012" | "013" | " " | "160" => true
  | _ => false
  end%char.

Fixpoint trim_start (s : string) : string :=
  match s with
  | EmptyString => ""
  | String c s' => if is_white_space c then trim_start s' else s
  end.

Definition trim (s : string) : string :=
  String.rev (trim_start (String.rev (trim_start s))).

(** The object literal [config]. *)
Definition initial (env : Env) : AppConfig :=
  {| defaultSearchEngine := or_default (DEFAULT_SEARCH_ENGINE env) "bing";
     allowedSearchEngines :=
       if Js.truthy (ALLOWED_SEARCH_ENGINES env)
       then trim <$> split_comma (Js.property_key (ALLOWED_SEARCH_ENGINES env))
       else [];
     proxyUrl := or_default (PROXY_URL env) "http://127.0.0.1:10809";
     useProxy := strict_eq (USE_PROXY env) "true";
     enableCors := strict_eq (ENABLE_CORS env) "true";
     corsOrigin := or_default (CORS_ORIGIN env) "*";
     enableHttpServer :=
       if Js.truthy (MODE env)
       then includes ["both"; "http"] (Js.property_key (MODE env))
       else true |}.

Definition validSearchEngines : list string :=
  ["bing"; "duckduckgo"; "exa"; "brave"; "baidu"; "csdn"; "linuxdo"; "juejin"].

Definition with_default (e : string) (c : AppConfig) : AppConfig :=
  mkAppConfig e (allowedSearchEngines c) (proxyUrl c) (useProxy c)
              (enableCors c) (corsOrigin c) (enableHttpServer c).

Definition with_allowed (l : list string) (c : AppConfig) : AppConfig :=
  mkAppConfig (defaultSearchEngine c) l (proxyUrl c) (useProxy c)
              (enableCors c) (corsOrigin c) (enableHttpServer c).

(** "Validate default search engine" *)
Definition validate_default (c : AppConfig) : AppConfig :=
  if negb (includes validSearchEngines (defaultSearchEngine c))
  then with_default "bing" c
  else c.

(** "Validate allowed search engines" *)
Definition validate_allowed (c : AppConfig) : AppConfig :=
  if 0 <? length (allowedSearchEngines c) then
    let c' :=
      with_allowed
        (filter (λ engine, includes validSearchEngines engine = true)
                (allowedSearchEngines c)) c in
    match allowedSearchEngines c' with
    | [] => c'     (* all engines were invalid: no restriction *)
    | first :: _ =>
        if negb (includes (allowedSearchEngines c') (defaultSearchEngine c'))
        then with_default first c'
        else c'
    end
  else c.

(** The value of [config] once the module has been evaluated. *)
Definition config (env : Env) : AppConfig :=
  validate_allowed (validate_default (initial env)).

End Config.

(** ** Traces of the legacy route *)

Module MuxTrace.
Import Js Mux.

(** The session ids drawn for legacy endpoints: one per GET [/sse], in the
    constructor of [SSEServerTransport]. *)
Definition drawn_legacy (e : Event) : list string :=
  match e with
  | GetSse u => [randomUUID u]
  | _ => []
  end.

Definition drawn_legacy_in (tr : list Event) : list string :=
  tr ≫= drawn_legacy.

(** The session id a request presents to a route: the header on [/mcp],
    the query parameter on [/messages]; GET [/sse] and the close events
    present none. *)
Definition presented (e : Event) : option string :=
  match e with
  | PostMcp req _ | GetMcp req _ | DeleteMcp req _ =>
      Some (property_key (mcp_session_id req))
  | PostMessages req => Some (property_key (query_sessionId req))
  | _ => None
  end.

End MuxTrace.

(** ** More of the JavaScript library the two files call *)

Module JsLib.

(** [Array.prototype.join] on strings (the warnings of [config.ts] join
    with [', ']). *)
Fixpoint join (sep : string) (l : list string) : string :=
  match l with
  | [] => ""
  | [x] => x
  | x :: rest => x +:+ sep +:+ join sep rest
  end.

(** Strings whose characters all satisfy a test. *)
Fixpoint string_forall (f : ascii → bool) (s : string) : bool :=
  match s with
  | EmptyString => true
  | String c s' => f c && string_forall f s'
  end.

Definition first_char (s : string) : option ascii :=
  match s with
  | EmptyString => None
  | String c _ => Some c
  end.

Definition last_char (s : string) : option ascii :=
  first_char (String.rev s).

(** *** [encodeURI] on code units below 256 *)

Definition is_alpha_num (c : ascii) : bool :=
  let n := N_of_ascii c in
  ((48 <=? n) && (n <=? 57) || (65 <=? n) && (n <=? 90)
   || (97 <=? n) && (n <=? 122))%N.

(** The characters [encodeURI] leaves alone: uriReserved, uriUnescaped
    and the number sign. *)
Definition uri_unescaped (c : ascii) : bool :=
  is_alpha_num c
  || match c with
     | ";" | "/" | "?" | ":" | "@" | "&" | "=" | "+" | "$" | ","
     | "-" | "_" | "." | "!" | "~" | "*" | "'" | "(" | ")" | "#" => true
     | _ => false
     end%char.

Definition hex_upper (n : N) : ascii :=
  match (n mod 16)%N with
  | 0 => "0" | 1 => "1" | 2 => "2" | 3 => "3" | 4 => "4" | 5 => "5"
  | 6 => "6" | 7 => "7" | 8 => "8" | 9 => "9" | 10 => "A" | 11 => "B"
  | 12 => "C" | 13 => "D" | 14 => "E" | _ => "F"
  end%N%char.

(** One octet, percent-encoded. *)
Definition percent (octet : N) : string :=
  String "%" (String (hex_upper (octet / 16)) (String (hex_upper octet) "")).

(** A code unit below 128 is one UTF-8 octet, one from 128 to 255 is
    two. *)
Definition encode_unit (c : ascii) : string :=
  let n := N_of_ascii c in
  if uri_unescaped c then String c ""
  else if (n <? 128)%N then percent n
  else percent (192 + n / 64) +:+ percent (128 + n mod 64).

Fixpoint encodeURI (s : string) : string :=
  match s with
  | EmptyString => ""
  | String c s' => encode_unit c +:+ encodeURI s'
  end.

(** *** [parseInt(s, 10)] *)

Definition digit (c : ascii) : option N :=
  let n := N_of_ascii c in
  if ((48 <=? n) && (n <=? 57))%N then Some (n - 48)%N else None.

(** The value of the longest prefix of decimal digits, [None] when there
    is no digit at the front. *)
Fixpoint leading_digits (acc : option N) (s : string) : option N :=
  match s with
  | EmptyString => acc
  | String c s' =>
      match digit c with
      | Some d => leading_digits (Some (from_option (N.mul 10) 0 acc + d)%N) s'
      | None => acc
      end
  end.

Definition is_digit (c : ascii) : bool :=
  match digit c with
  | Some _ => true
  | None => false
  end.

Definition no_digit_first (s : string) : bool :=
  match first_char s with
  | Some c => negb (is_digit c)
  | None => true
  end.

Inductive JsInteger :=
| NaN
| Int (z : Z).

(** The digits at the front of [s] as a number, with the sign read
    before them; [NaN] when there is no digit. *)
Definition read_digits (negative : bool) (s : string) : JsInteger :=
  match leading_digits None s with
  | None => NaN
  | Some n => Int (if negative then - Z.of_N n else Z.of_N n)
  end.

(** [parseInt(s, 10)]: leading white space is skipped, one sign is
    accepted, the digits that follow are read and the rest is ignored.
    [Int z] stands for the mathematical value; the Number the runtime
    returns is that value rounded to a double, which is the same value up
    to [2 ^ 53], and a negative zero is not told from zero here. *)
Definition parseInt10 (s : string) : JsInteger :=
  let s1 := Config.trim_start s in
  match s1 with
  | String "-" r => read_digits true r
  | String "+" r => read_digits false r
  | _ => read_digits false s1
  end.

(** Shapes of the pieces of a comma-separated list. *)
Definition no_comma (w : string) : bool :=
  string_forall (λ c, negb (Ascii.eqb c ",")) w.

Definition white (w : string) : bool :=
  string_forall Config.is_white_space w.

Definition starts_tight (w : string) : bool :=
  match first_char w with
  | Some c => negb (Config.is_white_space c)
  | None => true
  end.

(** No white space at either end (the empty string included). *)
Definition tight (w : string) : bool :=
  starts_tight w && starts_tight (String.rev w).

(** An entry of a comma-separated list: a word with white space before
    and after it. *)
Record Entry := mkEntry {
  before : string;
  word : string;
  after : string
}.

Definition written (e : Entry) : string := before e +:+ word e +:+ after e.

Definition well_formed (e : Entry) : Prop :=
  white (before e) = true ∧ white (after e) = true
  ∧ tight (word e) = true ∧ no_comma (word e) = true ∧ word e ≠ "".

End JsLib.

(** ** The rest of [config.ts] and the start-up decisions of [main] *)

Module Bootstrap.
Import Config JsLib.

(** [export function getProxyUrl()] *)
Definition getProxyUrl (c : AppConfig) : option string :=
  if useProxy c then Some (encodeURI (proxyUrl c)) else None.

(** The condition under which [main] starts the stdio transport:
    [MODE === undefined || MODE === 'both' || MODE === 'stdio']. *)
Definition stdio_enabled (env : Env) : bool :=
  bool_decide (MODE env = None)
  || strict_eq (MODE env) "both" || strict_eq (MODE env) "stdio".

(** [origin: config.corsOrigin || '*'] in the options given to [cors]. *)
Definition cors_origin (c : AppConfig) : string :=
  or_default (Some (corsOrigin c)) "*".

(** [const PORT = process.env.PORT ? parseInt(process.env.PORT, 10) : 3000] *)
Definition PORT (port : option string) : JsInteger :=
  if Js.truthy port then parseInt10 (Js.property_key port) else Int 3000.

End Bootstrap.

Example config_sample :
  let c := Config.config
    (Config.mkEnv (Some "google") (Some " exa , foo,brave") None None None
                  None (Some "stdio")) in
  Config.defaultSearchEngine c = "exa"
  ∧ Config.allowedSearchEngines c = ["exa"; "brave"]
  ∧ Config.enableHttpServer c = false.
Proof. vm_compute. done. Qed.

Example randomUUID_sample :
  Js.randomUUID 0x123e4567e89b42d3a456426614174000%N
  = "123e4567-e89b-42d3-a456-426614174000".
Proof. vm_compute. reflexivity. Qed.

(** * Facts about the JavaScript layer *)

Module JsFacts.
Import Js.

Lemma string_length_app (a b : string) :
  String.length (a +:+ b) = String.length a + String.length b.
Proof. induction a as [|c a IH]; simpl; [done | by rewrite IH]. Qed.

Lemma hex_fixed_length (k : nat) (n : N) : String.length (hex_fixed k n) = k.
Proof.
  revert n. induction k as [|k IH]; intros n; simpl; [done|].
  rewrite string_length_app, IH. simpl. lia.
Qed.

Lemma randomUUID_length (u : N) : String.length (randomUUID u) = 36.
Proof.
  unfold randomUUID.
  repeat (rewrite string_length_app || rewrite hex_fixed_length). reflexivity.
Qed.

Lemma randomUUID_nonempty (u : N) : randomUUID u ≠ "".
Proof.
  intros E. pose proof (randomUUID_length u) as L. rewrite E in L.
  discriminate L.
Qed.

Lemma randomUUID_truthy (u : N) : truthy (Some (randomUUID u)) = true.
Proof.
  unfold truthy. apply negb_true_iff, String.eqb_neq, randomUUID_nonempty.
Qed.

Lemma randomUUID_not_inherited (u : N) :
  randomUUID u ∉ object_prototype_keys.
Proof.
  intros Hin. pose proof (randomUUID_length u) as L.
  unfold object_prototype_keys in Hin.
  repeat (apply elem_of_cons in Hin as [E | Hin];
          [rewrite E in L; discriminate L|]).
  by apply elem_of_nil in Hin.
Qed.

Lemma truthy_Some (s : string) : truthy (Some s) = true ↔ s ≠ "".
Proof.
  unfold truthy. rewrite negb_true_iff. apply String.eqb_neq.
Qed.

Lemma truthy_false (x : option string) :
  truthy x = false ↔ x = None ∨ x = Some "".
Proof.
  destruct x as [s|]; unfold truthy.
  - rewrite negb_false_iff, String.eqb_eq. split.
    + intros ->. by right.
    + intros [E | E]; congruence.
  - split; [by left | done].
Qed.

Lemma get_property_own {A} (obj : gmap string A) key a :
  obj !! key = Some a → get_property obj key = Own a.
Proof. unfold get_property. by intros ->. Qed.

Lemma get_property_undefined {A} (obj : gmap string A) key :
  obj !! key = None → key ∉ object_prototype_keys →
  get_property obj key = Undefined.
Proof.
  unfold get_property. intros -> Hk. by rewrite bool_decide_eq_false_2.
Qed.

Lemma get_property_inherited {A} (obj : gmap string A) key :
  obj !! key = None → key ∈ object_prototype_keys →
  get_property obj key = Inherited.
Proof.
  unfold get_property. intros -> Hk. by rewrite bool_decide_eq_true_2.
Qed.

Lemma get_property_Own_inv {A} (obj : gmap string A) key a :
  get_property obj key = Own a → obj !! key = Some a.
Proof.
  unfold get_property. destruct (obj !! key); [congruence|].
  by case_bool_decide.
Qed.

End JsFacts.

(** * The multiplexer: auxiliary lemmas *)

Module MuxFacts.
Import Js JsFacts Mux.

Lemma sdk_call_length t c σ :
  length (heap (sdk_call t c σ)) = length (heap σ).
Proof.
  destruct c as [u|]; simpl.
  - destruct (heap σ !! t) as [o|]; [|done].
    destruct (initialized o); [done|].
    rewrite ?randomUUID_truthy. simpl. by rewrite length_insert.
  - unfold onclose. destruct (heap σ !! t) as [o|]; [|done].
    by destruct (truthy (sessionId o)).
Qed.

Lemma sdk_call_heap_ne t t' c σ :
  t ≠ t' → heap (sdk_call t c σ) !! t' = heap σ !! t'.
Proof.
  intros Hne. destruct c as [u|]; simpl.
  - destruct (heap σ !! t) as [o|]; [|done].
    destruct (initialized o); [done|].
    rewrite ?randomUUID_truthy. simpl. by rewrite list_lookup_insert_ne.
  - unfold onclose. destruct (heap σ !! t) as [o|]; [|done].
    by destruct (truthy (sessionId o)).
Qed.

Lemma sdk_call_sse t c σ :
  sse (transports (sdk_call t c σ)) = sse (transports σ).
Proof.
  destruct c as [u|]; simpl.
  - destruct (heap σ !! t) as [o|]; [|done].
    destruct (initialized o); [done|].
    by rewrite ?randomUUID_truthy.
  - unfold onclose. destruct (heap σ !! t) as [o|]; [|done].
    by destruct (truthy (sessionId o)).
Qed.

(** On an endpoint whose handshake is over, the SDK can only close. *)
Lemma sdk_call_ready t c σ k s :
  heap σ !! t = Some (mkTransport k (Some s) true) → s ≠ "" →
  sdk_call t c σ =
    match c with
    | SessionInitialized _ => σ
    | Close => set_streamable (delete s) σ
    end.
Proof.
  intros Ht Hs. destruct c as [u|]; simpl.
  - by rewrite Ht.
  - unfold onclose. rewrite Ht. simpl sessionId.
    by rewrite (proj2 (truthy_Some s) Hs).
Qed.

Lemma sdk_call_kind t c σ o :
  heap σ !! t = Some o →
  ∃ o', heap (sdk_call t c σ) !! t = Some o' ∧ kind o' = kind o.
Proof.
  intros Ht. destruct c as [u|]; simpl.
  - rewrite Ht. destruct (initialized o); [by eauto|].
    rewrite ?randomUUID_truthy. simpl.
    rewrite list_lookup_insert_eq by (by eapply lookup_lt_Some). by eauto.
  - unfold onclose. rewrite Ht.
    destruct (truthy (sessionId o)); simpl; by eauto.
Qed.

Lemma table_ok_delete k r tbl h s :
  table_ok k r tbl h → table_ok k r (delete s tbl) h.
Proof.
  intros H s' t' Hl. apply lookup_delete_Some in Hl as [_ Hl]. by apply H.
Qed.

Lemma table_ok_app k r tbl h x :
  table_ok k r tbl h → table_ok k r tbl (h ++ [x]).
Proof.
  intros H s t Hl. destruct (H s t Hl) as [Hu Hh]. split; [done|].
  by apply lookup_app_l_Some.
Qed.

Lemma sdk_call_consistent t c σ o :
  consistent σ → heap σ !! t = Some o →
  kind o = StreamableHTTPServerTransport →
  consistent (sdk_call t c σ).
Proof.
  intros [Hst Hss] Ht Hk. destruct c as [u|]; simpl.
  - rewrite Ht. destruct (initialized o) eqn:Hi; [done|].
    rewrite ?randomUUID_truthy. split; simpl.
    + intros s t' Hl. apply lookup_insert_Some in Hl as [[<- <-] | [Hne Hl]].
      * split; [by eauto|]. rewrite Hk.
        apply list_lookup_insert_eq. by eapply lookup_lt_Some.
      * destruct (Hst s t' Hl) as [Hu Hh]. split; [done|].
        rewrite list_lookup_insert_ne; [done|].
        intros <-. rewrite Ht in Hh. injection Hh as ->. discriminate Hi.
    + intros s t' Hl. destruct (Hss s t' Hl) as [Hu Hh]. split; [done|].
      rewrite list_lookup_insert_ne; [done|].
      intros <-. rewrite Ht in Hh. injection Hh as ->. discriminate Hk.
  - unfold onclose. rewrite Ht. destruct (truthy (sessionId o)); [|done].
    split; simpl; [by apply table_ok_delete | done].
Qed.

Lemma handleRequest_length t sdk σ :
  length (heap (handleRequest t sdk σ)) = length (heap σ).
Proof.
  unfold handleRequest. revert σ.
  induction sdk as [|c sdk IH]; intros σ; simpl; [done|].
  by rewrite IH, sdk_call_length.
Qed.

Lemma handleRequest_heap_ne t t' sdk σ :
  t ≠ t' → heap (handleRequest t sdk σ) !! t' = heap σ !! t'.
Proof.
  intros Hne. unfold handleRequest. revert σ.
  induction sdk as [|c sdk IH]; intros σ; simpl; [done|].
  by rewrite IH, sdk_call_heap_ne.
Qed.

Lemma handleRequest_sse t sdk σ :
  sse (transports (handleRequest t sdk σ)) = sse (transports σ).
Proof.
  unfold handleRequest. revert σ.
  induction sdk as [|c sdk IH]; intros σ; simpl; [done|].
  by rewrite IH, sdk_call_sse.
Qed.


Lemma handleRequest_consistent t sdk σ o :
  consistent σ → heap σ !! t = Some o →
  kind o = StreamableHTTPServerTransport →
  consistent (handleRequest t sdk σ).
Proof.
  unfold handleRequest. revert σ o.
  induction sdk as [|c sdk IH]; intros σ o Hc Ht Hk; simpl; [done|].
  destruct (sdk_call_kind t c σ o Ht) as (o1 & H1 & K1).
  eapply IH; [by eapply sdk_call_consistent | exact H1 | congruence].
Qed.

(** On a ready endpoint, [handleRequest] changes the server only if the
    SDK closes: then the endpoint's id leaves the streamable table. *)
Lemma handleRequest_ready t sdk σ k s :
  heap σ !! t = Some (mkTransport k (Some s) true) → s ≠ "" →
  handleRequest t sdk σ =
    if bool_decide (Close ∈ sdk) then set_streamable (delete s) σ else σ.
Proof.
  intros Ht Hs. unfold handleRequest. revert σ Ht.
  induction sdk as [|c sdk IH]; intros σ Ht; simpl.
  - done.
  - rewrite (sdk_call_ready t c σ k s Ht Hs). destruct c as [u|].
    + rewrite (IH σ Ht).
      assert (bool_decide (Close ∈ SessionInitialized u :: sdk)
              = bool_decide (Close ∈ sdk)) as ->; [|done].
      apply bool_decide_ext. rewrite elem_of_cons.
      split; [intros [E | H]; [discriminate E | exact H] | by right].
    + rewrite (IH (set_streamable (delete s) σ) Ht).
      rewrite (bool_decide_eq_true_2 (Close ∈ Close :: sdk))
        by (apply elem_of_cons; by left).
      case_bool_decide; [|done].
      unfold set_streamable; simpl. by rewrite delete_delete_eq.
Qed.

Section Steps.

Variable isInitializeRequest : Json → bool.

Local Abbreviation post_mcp := (Mux.post_mcp isInitializeRequest).
Local Abbreviation step := (Mux.step isInitializeRequest).
Local Abbreviation run := (Mux.run isInitializeRequest).

Lemma set_heap_app_consistent σ x :
  consistent σ → consistent (set_heap (λ h, h ++ [x]) σ).
Proof. intros [H1 H2]. split; simpl; by apply table_ok_app. Qed.

Lemma new_endpoint_consistent sdk σ :
  consistent σ →
  consistent
    (handleRequest (length (heap σ)) sdk
       (set_heap (λ h, h ++ [mkTransport StreamableHTTPServerTransport
                                         None false]) σ)).
Proof.
  intros Hc.
  apply (handleRequest_consistent _ _ _
           (mkTransport StreamableHTTPServerTransport None false));
    [by apply set_heap_app_consistent | | reflexivity].
  simpl. by apply list_lookup_middle.
Qed.

Lemma post_mcp_consistent req sdk σ :
  consistent σ → consistent (post_mcp req sdk σ).1.
Proof.
  intros Hc. unfold Mux.post_mcp.
  destruct (get_property _ _) as [t| |] eqn:Hg;
    destruct (truthy (mcp_session_id req)); simpl; try done.
  - apply get_property_Own_inv in Hg.
    destruct (proj1 Hc _ _ Hg) as [_ Hh].
    eapply handleRequest_consistent; [done | exact Hh | reflexivity].
  - destruct (isInitializeRequest (body req)); simpl; [|done].
    by apply new_endpoint_consistent.
  - destruct (isInitializeRequest (body req)); simpl; [|done].
    by apply new_endpoint_consistent.
  - destruct (isInitializeRequest (body req)); simpl; [|done].
    by apply new_endpoint_consistent.
Qed.

Lemma handleSessionRequest_consistent req sdk σ :
  consistent σ → consistent (handleSessionRequest req sdk σ).1.
Proof.
  intros Hc. unfold handleSessionRequest.
  destruct (get_property _ _) as [t| |] eqn:Hg;
    destruct (truthy (mcp_session_id req)); simpl; try done.
  apply get_property_Own_inv in Hg.
  destruct (proj1 Hc _ _ Hg) as [_ Hh].
  eapply handleRequest_consistent; [done | exact Hh | reflexivity].
Qed.

Lemma get_sse_consistent u σ :
  consistent σ → consistent (get_sse u σ).1.
Proof.
  intros [H1 H2]. split; simpl; [by apply table_ok_app|].
  intros s t Hl. apply lookup_insert_Some in Hl as [[<- <-] | [Hne Hl]].
  - split; [by eauto|]. by apply list_lookup_middle.
  - by eapply (table_ok_app _ _ _ _ _ H2).
Qed.

Lemma step_consistent e σ : consistent σ → consistent (step e σ).1.
Proof.
  intros Hc. destruct e as [req sdk|req sdk|req sdk|u|req|t|t]; simpl.
  - by apply post_mcp_consistent.
  - by apply handleSessionRequest_consistent.
  - by apply handleSessionRequest_consistent.
  - by apply get_sse_consistent.
  - unfold post_messages. by destruct (get_property _ _).
  - destruct (heap σ !! t) as [[[] sid ini]|] eqn:Ht; simpl; try done.
    unfold on_res_close. rewrite Ht. destruct Hc as [H1 H2].
    split; simpl; [done | by apply table_ok_delete].
  - destruct (heap σ !! t) as [[[] sid ini]|] eqn:Ht; simpl; try done.
    unfold onclose. rewrite Ht. destruct (truthy _); [|done].
    destruct Hc as [H1 H2].
    split; simpl; [by apply table_ok_delete | done].
Qed.

Lemma run_consistent tr σ : consistent σ → consistent (run tr σ).
Proof.
  revert σ. induction tr as [|e tr IH]; intros σ Hc; simpl; [done|].
  by apply IH, step_consistent.
Qed.

Lemma init_consistent : consistent init.
Proof. split; intros s t Hl; simpl in Hl; by rewrite lookup_empty in Hl. Qed.

Lemma run_init_consistent tr : consistent (run tr init).
Proof. apply run_consistent, init_consistent. Qed.

(** *** When the handlers turn a request down *)

Lemma post_mcp_rejects req sdk σ :
  truthy (mcp_session_id req) = false
  ∨ get_property (streamable (transports σ))
      (property_key (mcp_session_id req)) = Undefined →
  isInitializeRequest (body req) = false →
  post_mcp req sdk σ = (σ, Sent 400 (JsonBody no_valid_session_id)).
Proof.
  intros H Hb. unfold Mux.post_mcp. rewrite Hb.
  destruct H as [-> | ->]; simpl; [done|].
  by rewrite !andb_false_r.
Qed.

Lemma post_mcp_unknown_id req sdk σ s :
  mcp_session_id req = Some s → s ≠ "" →
  get_property (streamable (transports σ)) s = Undefined →
  post_mcp req sdk σ = (σ, Sent 400 (JsonBody no_valid_session_id)).
Proof.
  intros Hh Hs Hg. unfold Mux.post_mcp. rewrite Hh. simpl property_key.
  rewrite Hg, (proj2 (truthy_Some s) Hs). reflexivity.
Qed.

Lemma handleSessionRequest_rejects req sdk σ :
  truthy (mcp_session_id req) = false
  ∨ get_property (streamable (transports σ))
      (property_key (mcp_session_id req)) = Undefined →
  handleSessionRequest req sdk σ
  = (σ, Sent 400 (TextBody "Invalid or missing session ID")).
Proof.
  intros H. unfold handleSessionRequest.
  destruct H as [-> | ->]; simpl; [done|].
  by rewrite orb_true_r.
Qed.

Lemma post_messages_unknown req σ :
  get_property (sse (transports σ)) (property_key (query_sessionId req))
  = Undefined →
  post_messages req σ
  = (σ, Sent 400 (TextBody "No transport found for sessionId")).
Proof. intros H. unfold post_messages. by rewrite H. Qed.

Lemma post_messages_known req σ t :
  sse (transports σ) !! property_key (query_sessionId req) = Some t →
  post_messages req σ = (σ, Delegated t HandlePostMessage).
Proof.
  intros H. unfold post_messages. by rewrite (get_property_own _ _ _ H).
Qed.

(** An id is unknown to a table when it is absent or empty, or when it is
    neither a key of the table nor a name found on the prototype chain. *)
Lemma unknown_id_undefined (tbl : gmap string nat) (x : option string) :
  tbl !! property_key x = None →
  property_key x ∉ object_prototype_keys →
  get_property tbl (property_key x) = Undefined.
Proof. apply get_property_undefined. Qed.

Lemma post_mcp_rejects_unknown req sdk σ :
  truthy (mcp_session_id req) = false
  ∨ streamable (transports σ) !! property_key (mcp_session_id req) = None
    ∧ property_key (mcp_session_id req) ∉ object_prototype_keys →
  isInitializeRequest (body req) = false →
  post_mcp req sdk σ = (σ, Sent 400 (JsonBody no_valid_session_id)).
Proof.
  intros [H | [H1 H2]]; apply post_mcp_rejects; [by left | right].
  by apply unknown_id_undefined.
Qed.

Lemma handleSessionRequest_rejects_unknown req sdk σ :
  truthy (mcp_session_id req) = false
  ∨ streamable (transports σ) !! property_key (mcp_session_id req) = None
    ∧ property_key (mcp_session_id req) ∉ object_prototype_keys →
  handleSessionRequest req sdk σ
  = (σ, Sent 400 (TextBody "Invalid or missing session ID")).
Proof.
  intros [H | [H1 H2]]; apply handleSessionRequest_rejects; [by left | right].
  by apply unknown_id_undefined.
Qed.

Lemma post_messages_rejects_unknown req σ :
  sse (transports σ) !! property_key (query_sessionId req) = None →
  property_key (query_sessionId req) ∉ object_prototype_keys →
  post_messages req σ
  = (σ, Sent 400 (TextBody "No transport found for sessionId")).
Proof.
  intros H1 H2. apply post_messages_unknown. by apply unknown_id_undefined.
Qed.

(** The [/mcp] handlers leave the legacy table alone. *)
Lemma post_mcp_sse req sdk σ :
  sse (transports (post_mcp req sdk σ).1) = sse (transports σ).
Proof.
  unfold Mux.post_mcp. destruct (truthy _ && truthy_value _).
  - destruct (get_property _ _); simpl; try done. apply handleRequest_sse.
  - destruct (negb _ && _); simpl; [|done]. by rewrite handleRequest_sse.
Qed.

Lemma handleSessionRequest_sse req sdk σ :
  sse (transports (handleSessionRequest req sdk σ).1) = sse (transports σ).
Proof.
  unfold handleSessionRequest. destruct (negb _ || negb _); [done|].
  destruct (get_property _ _); simpl; try done. apply handleRequest_sse.
Qed.

Lemma post_messages_state req σ : (post_messages req σ).1 = σ.
Proof. unfold post_messages. by destruct (get_property _ _). Qed.

(** *** An id stays out of the streamable table until it is drawn again *)

Lemma sdk_call_absent t c σ s :
  streamable (transports σ) !! s = None → s ∉ drawn_by_sdk [c] →
  streamable (transports (sdk_call t c σ)) !! s = None.
Proof.
  intros Hs Hd. destruct c as [u|]; simpl.
  - destruct (heap σ !! t) as [o|]; [|done].
    destruct (initialized o); [done|].
    rewrite ?randomUUID_truthy. simpl.
    rewrite lookup_insert_ne; [done|].
    intros E. apply Hd. simpl. rewrite E. by apply list_elem_of_singleton.
  - unfold onclose. destruct (heap σ !! t) as [o|]; [|done].
    destruct (truthy (sessionId o)); [|done].
    simpl. apply lookup_delete_None. by right.
Qed.

Lemma drawn_by_sdk_cons c sdk :
  drawn_by_sdk (c :: sdk) = drawn_by_sdk [c] ++ drawn_by_sdk sdk.
Proof. by destruct c. Qed.

Lemma handleRequest_absent t sdk σ s :
  streamable (transports σ) !! s = None → s ∉ drawn_by_sdk sdk →
  streamable (transports (handleRequest t sdk σ)) !! s = None.
Proof.
  unfold handleRequest. revert σ.
  induction sdk as [|c sdk IH]; intros σ Hs Hd; simpl; [done|].
  rewrite drawn_by_sdk_cons, elem_of_app in Hd.
  apply IH; [apply sdk_call_absent|]; tauto.
Qed.

Lemma step_absent e σ s :
  streamable (transports σ) !! s = None → s ∉ drawn e →
  streamable (transports (step e σ).1) !! s = None.
Proof.
  intros Hs Hd. destruct e as [req sdk|req sdk|req sdk|u|req|t|t]; simpl.
  - unfold Mux.post_mcp.
    destruct (truthy _ && truthy_value _).
    { destruct (get_property _ _); simpl; try done.
      by apply handleRequest_absent. }
    destruct (negb _ && _); simpl; [|done].
    by apply handleRequest_absent.
  - unfold handleSessionRequest. destruct (negb _ || negb _); [done|].
    destruct (get_property _ _); simpl; try done.
    by apply handleRequest_absent.
  - unfold handleSessionRequest. destruct (negb _ || negb _); [done|].
    destruct (get_property _ _); simpl; try done.
    by apply handleRequest_absent.
  - done.
  - unfold post_messages. by destruct (get_property _ _).
  - destruct (heap σ !! t) as [[[] sid ini]|] eqn:Ht; simpl; try done.
    unfold on_res_close. by rewrite Ht.
  - destruct (heap σ !! t) as [[[] sid ini]|] eqn:Ht; simpl; try done.
    unfold onclose. rewrite Ht. destruct (truthy _); [|done].
    simpl. apply lookup_delete_None. by right.
Qed.

Lemma run_absent tr σ s :
  streamable (transports σ) !! s = None → s ∉ drawn_in tr →
  streamable (transports (run tr σ)) !! s = None.
Proof.
  revert σ. induction tr as [|e tr IH]; intros σ Hs Hd; simpl; [done|].
  unfold drawn_in in Hd. simpl in Hd. rewrite elem_of_app in Hd.
  apply IH; [apply step_absent|]; tauto.
Qed.

(** *** An entry of the streamable table appears only when its id is drawn *)

Lemma sdk_call_frame t c σ s t' :
  s ∉ drawn_by_sdk [c] →
  streamable (transports (sdk_call t c σ)) !! s = Some t' →
  streamable (transports σ) !! s = Some t'.
Proof.
  intros Hd. destruct c as [u|]; simpl.
  - destruct (heap σ !! t) as [o|]; [|done].
    destruct (initialized o); [done|].
    rewrite ?randomUUID_truthy. simpl.
    rewrite lookup_insert_ne; [done|].
    intros E. apply Hd. simpl. rewrite E. by apply list_elem_of_singleton.
  - unfold onclose. destruct (heap σ !! t) as [o|]; [|done].
    destruct (truthy (sessionId o)); [|done].
    simpl. by intros [_ H]%lookup_delete_Some.
Qed.

Lemma handleRequest_frame t sdk σ s t' :
  s ∉ drawn_by_sdk sdk →
  streamable (transports (handleRequest t sdk σ)) !! s = Some t' →
  streamable (transports σ) !! s = Some t'.
Proof.
  unfold handleRequest. revert σ.
  induction sdk as [|c sdk IH]; intros σ Hd; simpl; [done|].
  rewrite drawn_by_sdk_cons, elem_of_app in Hd. intros H.
  apply (sdk_call_frame t c); [tauto|]. apply IH; [tauto | done].
Qed.

Lemma step_frame e σ s t' :
  s ∉ drawn e →
  streamable (transports (step e σ).1) !! s = Some t' →
  streamable (transports σ) !! s = Some t'.
Proof.
  intros Hd. destruct e as [req sdk|req sdk|req sdk|u|req|t|t]; simpl.
  - unfold Mux.post_mcp.
    destruct (truthy _ && truthy_value _).
    { destruct (get_property _ _); simpl; try done.
      by apply handleRequest_frame. }
    destruct (negb _ && _); simpl; [|done].
    intros H. by apply handleRequest_frame in H.
  - unfold handleSessionRequest. destruct (negb _ || negb _); [done|].
    destruct (get_property _ _); simpl; try done.
    by apply handleRequest_frame.
  - unfold handleSessionRequest. destruct (negb _ || negb _); [done|].
    destruct (get_property _ _); simpl; try done.
    by apply handleRequest_frame.
  - done.
  - unfold post_messages. by destruct (get_property _ _).
  - destruct (heap σ !! t) as [[[] sid ini]|] eqn:Ht; simpl; try done.
    unfold on_res_close. by rewrite Ht.
  - destruct (heap σ !! t) as [[[] sid ini]|] eqn:Ht; simpl; try done.
    unfold onclose. rewrite Ht. destruct (truthy _); [|done].
    simpl. by intros [_ H]%lookup_delete_Some.
Qed.

(** *** Legacy transport objects are never written after construction *)

Lemma step_heap_sse e σ t o :
  consistent σ → heap σ !! t = Some o → kind o = SSEServerTransport →
  heap (step e σ).1 !! t = Some o.
Proof.
  intros Hc Ht Hk.
  assert (Hnew : ∀ sdk x,
    heap (handleRequest (length (heap σ)) sdk
            (set_heap (λ h, h ++ [x]) σ)) !! t = Some o).
  { intros sdk x. rewrite handleRequest_heap_ne.
    - simpl. by apply lookup_app_l_Some.
    - apply lookup_lt_Some in Ht. lia. }
  assert (Hold : ∀ sdk key t0,
    get_property (streamable (transports σ)) key = Own t0 →
    heap (handleRequest t0 sdk σ) !! t = Some o).
  { intros sdk key t0 Hg%get_property_Own_inv.
    destruct (proj1 Hc _ _ Hg) as [_ Hh].
    rewrite handleRequest_heap_ne; [done|].
    intros ->. rewrite Ht in Hh. injection Hh as ->. discriminate Hk. }
  destruct e as [req sdk|req sdk|req sdk|u|req|t1|t1]; simpl.
  - unfold Mux.post_mcp.
    destruct (truthy _ && truthy_value _).
    { destruct (get_property _ _) eqn:Hg; simpl; try done.
      by eapply Hold. }
    destruct (negb _ && _); simpl; [|done]. apply Hnew.
  - unfold handleSessionRequest. destruct (negb _ || negb _); [done|].
    destruct (get_property _ _) eqn:Hg; simpl; try done. by eapply Hold.
  - unfold handleSessionRequest. destruct (negb _ || negb _); [done|].
    destruct (get_property _ _) eqn:Hg; simpl; try done. by eapply Hold.
  - by apply lookup_app_l_Some.
  - unfold post_messages. by destruct (get_property _ _).
  - destruct (heap σ !! t1) as [[[] sid ini]|] eqn:Ht1; simpl; try done.
    unfold on_res_close. by rewrite Ht1.
  - destruct (heap σ !! t1) as [[[] sid ini]|] eqn:Ht1; simpl; try done.
    unfold onclose. rewrite Ht1. by destruct (truthy _).
Qed.

Lemma run_heap_sse tr σ t o :
  consistent σ → heap σ !! t = Some o → kind o = SSEServerTransport →
  heap (run tr σ) !! t = Some o.
Proof.
  revert σ. induction tr as [|e tr IH]; intros σ Hc Ht Hk; simpl; [done|].
  apply IH; [by apply step_consistent | by apply step_heap_sse | done].
Qed.

(** *** Names inherited from [Object.prototype] are never own keys *)

Lemma inherited_not_registered σ k :
  consistent σ → k ∈ object_prototype_keys →
  streamable (transports σ) !! k = None ∧ sse (transports σ) !! k = None.
Proof.
  intros [H1 H2] Hk. split.
  - destruct (streamable (transports σ) !! k) as [t|] eqn:E; [|done].
    destruct (H1 _ _ E) as [[u ->] _].
    by destruct (randomUUID_not_inherited u).
  - destruct (sse (transports σ) !! k) as [t|] eqn:E; [|done].
    destruct (H2 _ _ E) as [[u ->] _].
    by destruct (randomUUID_not_inherited u).
Qed.

Lemma registered_key_plain σ s t :
  consistent σ →
  streamable (transports σ) !! s = Some t ∨ sse (transports σ) !! s = Some t →
  s ≠ "" ∧ s ∉ object_prototype_keys.
Proof.
  intros [H1 H2] [E | E].
  - destruct (H1 _ _ E) as [[u ->] _].
    split; [apply randomUUID_nonempty | apply randomUUID_not_inherited].
  - destruct (H2 _ _ E) as [[u ->] _].
    split; [apply randomUUID_nonempty | apply randomUUID_not_inherited].
Qed.

End Steps.

End MuxFacts.

(** * The claims about the multiplexer *)

Module MuxSpec.
Import Js JsFacts Mux MuxFacts.

Section Claims.

Variable isInitializeRequest : Json → bool.

Local Abbreviation post_mcp := (Mux.post_mcp isInitializeRequest).
Local Abbreviation step := (Mux.step isInitializeRequest).
Local Abbreviation run := (Mux.run isInitializeRequest).

(** C1: a POST to [/mcp] whose [mcp-session-id] matches no registered
    session, and whose body is no initialization request, should be
    answered with status 400 and the [-32000] error envelope, without
    reaching an endpoint.  The code misses the ids that name a member
    inherited from [Object.prototype]: in every state the server can
    reach, ["constructor"] is not a registered session, yet the lookup
    [transports.streamable["constructor"]] is truthy, the first branch is
    taken, and the call of [handleRequest] on the inherited member throws;
    no 400 answer is sent, whatever the body. *)
Theorem post_mcp_inherited_id_throws tr (b : Json) sdk :
  let σ := run tr init in
  let req := mkRequest (Some "constructor") None b in
  streamable (transports σ) !! "constructor" = None
  ∧ post_mcp req sdk σ = (σ, TypeError)
  ∧ (post_mcp req sdk σ).2 ≠ Sent 400 (JsonBody no_valid_session_id).
Proof.
  intros σ req.
  assert (Hk : "constructor" ∈ object_prototype_keys)
    by (apply elem_of_cons; by left).
  destruct (inherited_not_registered σ "constructor"
              (run_init_consistent _ tr) Hk) as [Hs _].
  assert (E : post_mcp req sdk σ = (σ, TypeError)).
  { unfold Mux.post_mcp. simpl.
    by rewrite (get_property_inherited _ _ Hs Hk). }
  split; [done|]. split; [done|]. by rewrite E.
Qed.

(** C5: a GET or DELETE to [/mcp] whose [mcp-session-id] is not in the
    streamable table should be answered with status 400 and the text
    "Invalid or missing session ID".  For the id ["constructor"], which is
    never in the table, [handleSessionRequest] passes its guard on the
    inherited member and throws instead. *)
Theorem handleSessionRequest_inherited_id_throws tr (b : Json) sdk :
  let σ := run tr init in
  let req := mkRequest (Some "constructor") None b in
  streamable (transports σ) !! "constructor" = None
  ∧ step (GetMcp req sdk) σ = (σ, Some TypeError)
  ∧ step (DeleteMcp req sdk) σ = (σ, Some TypeError).
Proof.
  intros σ req.
  assert (Hk : "constructor" ∈ object_prototype_keys)
    by (apply elem_of_cons; by left).
  destruct (inherited_not_registered σ "constructor"
              (run_init_consistent _ tr) Hk) as [Hs _].
  assert (E : handleSessionRequest req sdk σ = (σ, TypeError)).
  { unfold handleSessionRequest. simpl.
    by rewrite (get_property_inherited _ _ Hs Hk). }
  split; [done|]. simpl. by rewrite E.
Qed.

(** C6: a POST to [/messages] reads the target id from the query
    parameter [sessionId] and should answer 400 "No transport found for
    sessionId" unless the id maps to a live endpoint of the legacy table.
    For [sessionId=constructor], which is never in the table, the handler
    calls [handlePostMessage] on the inherited member and throws instead;
    the header plays no part. *)
Theorem post_messages_inherited_id_throws tr (h : option string) (b : Json) :
  let σ := run tr init in
  let req := mkRequest h (Some "constructor") b in
  sse (transports σ) !! "constructor" = None
  ∧ post_messages req σ = (σ, TypeError).
Proof.
  intros σ req.
  assert (Hk : "constructor" ∈ object_prototype_keys)
    by (apply elem_of_cons; by left).
  destruct (inherited_not_registered σ "constructor"
              (run_init_consistent _ tr) Hk) as [_ Hs].
  split; [done|]. unfold post_messages. simpl.
  by rewrite (get_property_inherited _ _ Hs Hk).
Qed.

(** C2, as the code has it: once the session [s] has been terminated by
    a DELETE on [/mcp] (the request reaches the endpoint registered under
    [s], whose close handler fires and removes [s] from the streamable
    table), every later GET, POST or DELETE on [/mcp] carrying [s] is
    turned down with status 400 and leaves the server as it is, for as
    long as the id generator does not draw [s] a second time. *)
Theorem closed_session_id_rejected tr s t req sdk tr' req' sdk' :
  let σ := run tr init in
  let closing := step (DeleteMcp req sdk) σ in
  let σ' := run tr' closing.1 in
  streamable (transports σ) !! s = Some t →
  mcp_session_id req = Some s →
  Close ∈ sdk →
  s ∉ drawn_in tr' →
  mcp_session_id req' = Some s →
  closing.2 = Some (Delegated t HandleRequest)
  ∧ streamable (transports closing.1) !! s = None
  ∧ step (GetMcp req' sdk') σ'
    = (σ', Some (Sent 400 (TextBody "Invalid or missing session ID")))
  ∧ step (DeleteMcp req' sdk') σ'
    = (σ', Some (Sent 400 (TextBody "Invalid or missing session ID")))
  ∧ step (PostMcp req' sdk') σ'
    = (σ', Some (Sent 400 (JsonBody no_valid_session_id))).
Proof.
  intros σ closing σ' Hs Hreq Hclose Hfresh Hreq'.
  pose proof (run_init_consistent isInitializeRequest tr) as Hc.
  fold σ in Hc.
  destruct (registered_key_plain σ s t Hc (or_introl Hs)) as [Hne Hplain].
  destruct (proj1 Hc _ _ Hs) as [_ Hh].
  assert (Hdel : handleSessionRequest req sdk σ
                 = (set_streamable (delete s) σ, Delegated t HandleRequest)).
  { unfold handleSessionRequest. rewrite Hreq. simpl property_key.
    rewrite (get_property_own _ _ _ Hs), (proj2 (truthy_Some s) Hne). simpl.
    rewrite (handleRequest_ready _ _ _ _ _ Hh Hne).
    by rewrite bool_decide_eq_true_2. }
  assert (Hgone : streamable (transports closing.1) !! s = None).
  { unfold closing. simpl. rewrite Hdel. simpl. apply lookup_delete_eq. }
  assert (Hundef : get_property (streamable (transports σ')) s = Undefined).
  { apply get_property_undefined; [|done]. by apply run_absent. }
  split; [unfold closing; simpl; by rewrite Hdel|].
  split; [done|].
  assert (Hrej : handleSessionRequest req' sdk' σ'
                 = (σ', Sent 400 (TextBody "Invalid or missing session ID"))).
  { apply handleSessionRequest_rejects. right. by rewrite Hreq'. }
  simpl. rewrite Hrej.
  by rewrite (post_mcp_unknown_id _ req' sdk' σ' s Hreq' Hne Hundef).
Qed.

(** C3, as the code has it: an id is in the streamable table only once the
    endpoint it names has completed its initialization under that id, and
    a step puts an entry there only if the SDK drew that id during the
    step; an id is put in the legacy table by GET [/sse] itself, as soon as
    the endpoint is constructed and before any handshake. *)
Theorem table_entries_origin tr e s t u :
  let σ := run tr init in
  (streamable (transports σ) !! s = Some t →
     heap σ !! t
     = Some (mkTransport StreamableHTTPServerTransport (Some s) true))
  ∧ (streamable (transports (step e σ).1) !! s = Some t →
     streamable (transports σ) !! s = Some t ∨ s ∈ drawn e)
  ∧ (sse (transports σ) !! s = Some t →
     heap σ !! t = Some (mkTransport SSEServerTransport (Some s) false))
  ∧ sse (transports (get_sse u σ).1) !! randomUUID u
    = Some (length (heap σ))
  ∧ heap (get_sse u σ).1 !! length (heap σ)
    = Some (mkTransport SSEServerTransport (Some (randomUUID u)) false).
Proof.
  intros σ.
  pose proof (run_init_consistent isInitializeRequest tr) as [H1 H2].
  fold σ in H1, H2.
  split; [intros Hs; by destruct (H1 _ _ Hs)|].
  split.
  { intros Hs. destruct (decide (s ∈ drawn e)) as [|Hd]; [by right|].
    left. by eapply step_frame. }
  split; [intros Hs; by destruct (H2 _ _ Hs)|].
  split; simpl; [apply lookup_insert_eq | by apply list_lookup_middle].
Qed.

(** C4, as the code has it: registering a session under an id that is
    already in the table raises no error; the assignment replaces the
    entry in place (the table keeps the same keys), in the streamable
    table ([onsessioninitialized]) as in the legacy one (GET [/sse]). *)
Theorem insertion_replaces_existing σ s u old new :
  (streamable (transports σ) !! s = Some old →
     let σ' := onsessioninitialized new s σ in
     streamable (transports σ') !! s = Some new
     ∧ dom (streamable (transports σ')) = dom (streamable (transports σ)))
  ∧ (sse (transports σ) !! randomUUID u = Some old →
     let r := get_sse u σ in
     r.2 = StreamOpened (length (heap σ))
     ∧ sse (transports r.1) !! randomUUID u = Some (length (heap σ))
     ∧ dom (sse (transports r.1)) = dom (sse (transports σ))).
Proof.
  split.
  - intros Hs σ'. split; [apply lookup_insert_eq|].
    simpl. rewrite dom_insert_L.
    apply elem_of_dom_2 in Hs.
    apply subseteq_union_1_L. by apply singleton_subseteq_l.
  - intros Hs r. split; [reflexivity|]. split; [apply lookup_insert_eq|].
    simpl. rewrite dom_insert_L.
    apply elem_of_dom_2 in Hs.
    apply subseteq_union_1_L. by apply singleton_subseteq_l.
Qed.

(** C7: every GET to [/sse] constructs a legacy endpoint at once, under an
    id the server draws itself, and registers it in the legacy table; a
    POST to [/messages] with that id in the query reaches the endpoint
    right away; and when the stream closes, however much later, the entry
    of that id is gone from the legacy table. *)
Theorem get_sse_registers_until_close tr u h b tr' :
  let σ := run tr init in
  let t := length (heap σ) in
  let σ1 := (step (GetSse u) σ).1 in
  let req := mkRequest h (Some (randomUUID u)) b in
  step (GetSse u) σ = (σ1, Some (StreamOpened t))
  ∧ heap σ !! t = None
  ∧ heap σ1 !! t
    = Some (mkTransport SSEServerTransport (Some (randomUUID u)) false)
  ∧ sse (transports σ1) !! randomUUID u = Some t
  ∧ step (PostMessages req) σ1 = (σ1, Some (Delegated t HandlePostMessage))
  ∧ sse (transports (step (ResClose t) (run tr' σ1)).1) !! randomUUID u
    = None.
Proof.
  intros σ t σ1 req.
  pose proof (run_init_consistent isInitializeRequest tr) as Hc.
  fold σ in Hc.
  assert (Hc1 : consistent σ1) by (by apply step_consistent).
  assert (Hh : heap σ1 !! t
    = Some (mkTransport SSEServerTransport (Some (randomUUID u)) false))
    by (simpl; by apply list_lookup_middle).
  assert (Hs : sse (transports σ1) !! randomUUID u = Some t)
    by (simpl; apply lookup_insert_eq).
  split; [done|].
  split; [apply lookup_ge_None; unfold t; lia|].
  split; [done|]. split; [done|].
  split.
  { change (step (PostMessages req) σ1)
      with (prod_map id Some (post_messages req σ1)).
    by rewrite (post_messages_known req σ1 t Hs). }
  pose proof (run_heap_sse isInitializeRequest tr' σ1 t _ Hc1 Hh eq_refl)
    as Hlater.
  simpl. rewrite Hlater. unfold on_res_close. rewrite Hlater. simpl.
  apply lookup_delete_eq.
Qed.


(** C9, as the code has it: a POST to [/mcp] carrying a non-empty
    [mcp-session-id] that is neither in the streamable table nor the name
    of an inherited member is turned down with status 400 even when its
    body is an initialization request; an endpoint is constructed exactly
    when the header is absent or empty and the body is an initialization
    request, and only then can the request add an entry to the streamable
    table. *)
Theorem post_mcp_session_creation tr req sdk s t :
  let σ := run tr init in
  let r := post_mcp req sdk σ in
  (mcp_session_id req = Some s → s ≠ "" →
   streamable (transports σ) !! s = None → s ∉ object_prototype_keys →
   r = (σ, Sent 400 (JsonBody no_valid_session_id)))
  ∧ (length (heap r.1) = S (length (heap σ))
     ↔ (mcp_session_id req = None ∨ mcp_session_id req = Some "")
       ∧ isInitializeRequest (body req) = true)
  ∧ (streamable (transports r.1) !! s = Some t →
     streamable (transports σ) !! s = Some t
     ∨ (mcp_session_id req = None ∨ mcp_session_id req = Some "")
       ∧ isInitializeRequest (body req) = true).
Proof.
  intros σ r. rewrite <- !truthy_false.
  pose proof (run_init_consistent isInitializeRequest tr) as Hc.
  fold σ in Hc.
  split.
  { intros Hh Hne Hs Hplain.
    apply (post_mcp_unknown_id _ req sdk σ s Hh Hne).
    by apply get_property_undefined. }
  unfold r, Mux.post_mcp.
  destruct (truthy (mcp_session_id req)) eqn:Htr; simpl.
  - destruct (get_property _ _) as [t0| |] eqn:Hg; simpl.
    + apply get_property_Own_inv in Hg.
      destruct (proj1 Hc _ _ Hg) as [_ Hh].
      destruct (registered_key_plain σ _ t0 Hc (or_introl Hg)) as [Hne _].
      split.
      * rewrite handleRequest_length. split; [lia | by intros [? _]].
      * rewrite (handleRequest_ready _ _ _ _ _ Hh Hne).
        case_bool_decide; simpl; [|by left].
        intros [_ Hd]%lookup_delete_Some. by left.
    + split; [split; [lia | by intros [? _]] | by left].
    + split; [split; [lia | by intros [? _]] | by left].
  - destruct (isInitializeRequest (body req)); simpl.
    + split; [|by right].
      rewrite handleRequest_length. simpl. rewrite length_app. simpl.
      split; [done | lia].
    + split; [split; [lia | by intros [_ ?]] | by left].
Qed.

End Claims.

(** C2 as stated fails: nothing in the code keeps a closed id from being
    registered again.  When the generator draws the id of a terminated
    session a second time for a new session, a GET, a DELETE and a POST
    carrying the closed id are handed to the new endpoint. *)
Lemma closed_session_id_drawn_again :
  let s := randomUUID uuid_a in
  let carrying := mkRequest (Some s) None tools_call_body in
  let σ := run initialize_request_shape
               [PostMcp initialize_request [SessionInitialized uuid_a]]
               init in
  let closing := step initialize_request_shape
                      (DeleteMcp carrying [Close]) σ in
  let σ' := run initialize_request_shape
                [PostMcp initialize_request [SessionInitialized uuid_a]]
                closing.1 in
  streamable (transports σ) !! s = Some 0
  ∧ closing.2 = Some (Delegated 0 HandleRequest)
  ∧ streamable (transports closing.1) !! s = None
  ∧ (step initialize_request_shape (GetMcp carrying []) σ').2
    = Some (Delegated 1 HandleRequest)
  ∧ (step initialize_request_shape (DeleteMcp carrying []) σ').2
    = Some (Delegated 1 HandleRequest)
  ∧ (step initialize_request_shape (PostMcp carrying []) σ').2
    = Some (Delegated 1 HandleRequest).
Proof. vm_compute. by repeat split. Qed.

(** C3 as stated fails for the legacy table: after a single GET [/sse],
    with no request body ever received, the drawn id is already in the
    table while its endpoint has completed no handshake. *)
Lemma sse_entry_before_handshake :
  ¬ (∀ tr s t,
       let σ := run initialize_request_shape tr init in
       sse (transports σ) !! s = Some t →
       ∃ o, heap σ !! t = Some o ∧ initialized o = true).
Proof.
  intros H.
  destruct (H [GetSse uuid_a] (randomUUID uuid_a) 0) as (o & Ho & Hi).
  - vm_compute. reflexivity.
  - vm_compute in Ho. injection Ho as <-. discriminate Hi.
Qed.

(** C4 as stated fails: when the generator draws the same id twice, the
    second registration goes through without any error and the entry now
    names the second endpoint, in either table. *)
Lemma duplicate_id_overwrites :
  let σ := run initialize_request_shape
               [PostMcp initialize_request [SessionInitialized uuid_a];
                GetSse uuid_b] init in
  let r := post_mcp initialize_request_shape initialize_request
                    [SessionInitialized uuid_a] σ in
  let r' := get_sse uuid_b σ in
  streamable (transports σ) !! randomUUID uuid_a = Some 0
  ∧ r.2 = Delegated 2 HandleRequest
  ∧ streamable (transports r.1) !! randomUUID uuid_a = Some 2
  ∧ sse (transports σ) !! randomUUID uuid_b = Some 1
  ∧ r'.2 = StreamOpened 2
  ∧ sse (transports r'.1) !! randomUUID uuid_b = Some 2.
Proof. vm_compute. by repeat split. Qed.

(** C9 as stated fails: a POST that carries the header with an empty
    value, which is not in the table, and a complete initialization
    request as its body is not turned down; an endpoint is constructed and
    its session registered. *)
Lemma empty_session_header_accepted :
  let req := mkRequest (Some "") None initialize_body in
  let r := post_mcp initialize_request_shape req [SessionInitialized uuid_a]
                    init in
  mcp_session_id req = Some ""
  ∧ streamable (transports init) !! "" = None
  ∧ initialize_request_shape (body req) = true
  ∧ r.2 = Delegated 0 HandleRequest
  ∧ r.2 ≠ Sent 400 (JsonBody no_valid_session_id)
  ∧ heap r.1 = [mkTransport StreamableHTTPServerTransport
                            (Some (randomUUID uuid_a)) true]
  ∧ streamable (transports r.1) !! randomUUID uuid_a = Some 0.
Proof. vm_compute. by repeat split. Qed.

(** The termination scenario of C2 on a concrete run: a session is
    opened, deleted, and its id presented again after other traffic. *)
Lemma closed_session_id_rejected_witness :
  let tr := [PostMcp initialize_request [SessionInitialized uuid_a]] in
  let s := randomUUID uuid_a in
  let req := mkRequest (Some s) None JNull in
  let tr' := [GetSse uuid_a;
              PostMcp initialize_request [SessionInitialized uuid_b]] in
  let req' := mkRequest (Some s) None initialize_body in
  let σ := run initialize_request_shape tr init in
  let closing := step initialize_request_shape (DeleteMcp req [Close]) σ in
  let σ' := run initialize_request_shape tr' closing.1 in
  (streamable (transports σ) !! s = Some 0
   ∧ mcp_session_id req = Some s
   ∧ Close ∈ [Close]
   ∧ (s ∉ drawn_in tr')
   ∧ mcp_session_id req' = Some s)
  ∧ closing.2 = Some (Delegated 0 HandleRequest)
  ∧ streamable (transports closing.1) !! s = None
  ∧ step initialize_request_shape (GetMcp req' []) σ'
    = (σ', Some (Sent 400 (TextBody "Invalid or missing session ID")))
  ∧ step initialize_request_shape (DeleteMcp req' []) σ'
    = (σ', Some (Sent 400 (TextBody "Invalid or missing session ID")))
  ∧ step initialize_request_shape (PostMcp req' []) σ'
    = (σ', Some (Sent 400 (JsonBody no_valid_session_id))).
Proof.
  intros tr s req tr' req' σ closing σ'.
  assert (H1 : streamable (transports σ) !! s = Some 0)
    by (vm_compute; reflexivity).
  assert (H2 : mcp_session_id req = Some s) by reflexivity.
  assert (H3 : Close ∈ [Close]) by (apply elem_of_cons; left; reflexivity).
  assert (H4 : s ∉ drawn_in tr')
    by (apply (bool_decide_unpack _); vm_compute; exact I).
  assert (H5 : mcp_session_id req' = Some s) by reflexivity.
  split; [exact (conj H1 (conj H2 (conj H3 (conj H4 H5))))|].
  exact (closed_session_id_rejected initialize_request_shape tr s 0 req [Close]
           tr' req' [] H1 H2 H3 H4 H5).
Defined.

(** A server with one bidirectional session (endpoint 0, id drawn from
    [uuid_a]) and one legacy session (endpoint 1, id drawn from [uuid_b]):
    the premises of C3, C4, C8 and C9 are met there. *)
Lemma table_entries_origin_witness :
  let tr := [PostMcp initialize_request [SessionInitialized uuid_a];
             GetSse uuid_b] in
  let σ := run initialize_request_shape tr init in
  (streamable (transports σ) !! randomUUID uuid_a = Some 0
   ∧ heap σ !! 0 = Some (mkTransport StreamableHTTPServerTransport
                                      (Some (randomUUID uuid_a)) true))
  ∧ (sse (transports σ) !! randomUUID uuid_b = Some 1
     ∧ heap σ !! 1 = Some (mkTransport SSEServerTransport
                                        (Some (randomUUID uuid_b)) false)).
Proof.
  intros tr σ.
  assert (H1 : streamable (transports σ) !! randomUUID uuid_a = Some 0)
    by (vm_compute; reflexivity).
  assert (H2 : sse (transports σ) !! randomUUID uuid_b = Some 1)
    by (vm_compute; reflexivity).
  pose proof (table_entries_origin initialize_request_shape tr (GetSse uuid_b)
                (randomUUID uuid_a) 0 uuid_b) as (P1 & _).
  pose proof (table_entries_origin initialize_request_shape tr (GetSse uuid_b)
                (randomUUID uuid_b) 1 uuid_b) as (_ & _ & P3 & _).
  exact (conj (conj H1 (P1 H1)) (conj H2 (P3 H2))).
Defined.

Lemma insertion_replaces_existing_witness :
  let σ := run initialize_request_shape
               [PostMcp initialize_request [SessionInitialized uuid_a];
                GetSse uuid_b] init in
  (streamable (transports σ) !! randomUUID uuid_a = Some 0
   ∧ streamable (transports (onsessioninitialized 2 (randomUUID uuid_a) σ))
       !! randomUUID uuid_a = Some 2)
  ∧ (sse (transports σ) !! randomUUID uuid_b = Some 1
     ∧ (get_sse uuid_b σ).2 = StreamOpened 2
     ∧ sse (transports (get_sse uuid_b σ).1) !! randomUUID uuid_b = Some 2).
Proof.
  intros σ.
  assert (H1 : streamable (transports σ) !! randomUUID uuid_a = Some 0)
    by (vm_compute; reflexivity).
  assert (H2 : sse (transports σ) !! randomUUID uuid_b = Some 1)
    by (vm_compute; reflexivity).
  pose proof (insertion_replaces_existing σ (randomUUID uuid_a) uuid_b 0 2)
    as (P1 & _).
  pose proof (insertion_replaces_existing σ (randomUUID uuid_a) uuid_b 1 2)
    as (_ & P2).
  destruct (P1 H1) as (Q1 & _). destruct (P2 H2) as (Q2 & Q3 & _).
  exact (conj (conj H1 Q1) (conj H2 (conj Q2 Q3))).
Defined.


Lemma post_mcp_session_creation_witness :
  let req := mkRequest (Some "unknown-id") None initialize_body in
  ("unknown-id" ≠ ""
   ∧ streamable (transports init) !! "unknown-id" = None
   ∧ ("unknown-id" ∉ object_prototype_keys)
   ∧ initialize_request_shape (body req) = true)
  ∧ post_mcp initialize_request_shape req [SessionInitialized uuid_a] init
    = (init, Sent 400 (JsonBody no_valid_session_id)).
Proof.
  intros req.
  assert (H1 : "unknown-id" ≠ "") by discriminate.
  assert (H2 : streamable (transports init) !! "unknown-id" = None)
    by reflexivity.
  assert (H3 : "unknown-id" ∉ object_prototype_keys)
    by (apply (bool_decide_unpack _); vm_compute; exact I).
  pose proof (post_mcp_session_creation initialize_request_shape [] req
                [SessionInitialized uuid_a] "unknown-id" 0) as (P1 & _).
  exact (conj (conj H1 (conj H2 (conj H3 eq_refl))) (P1 eq_refl H1 H2 H3)).
Defined.

End MuxSpec.

(** * The claim about configuration loading *)

Module ConfigSpec.
Import Config.

Lemma includes_true l x : includes l x = true ↔ x ∈ l.
Proof. unfold includes. apply bool_decide_eq_true. Qed.

Lemma bing_valid : "bing" ∈ validSearchEngines.
Proof. apply elem_of_cons. by left. Qed.

Lemma validate_default_valid c :
  defaultSearchEngine (validate_default c) ∈ validSearchEngines.
Proof.
  unfold validate_default.
  destruct (includes validSearchEngines (defaultSearchEngine c)) eqn:E; simpl.
  - by apply includes_true.
  - apply bing_valid.
Qed.

Lemma validate_allowed_spec c :
  defaultSearchEngine c ∈ validSearchEngines →
  let c' := validate_allowed c in
  defaultSearchEngine c' ∈ validSearchEngines
  ∧ allowedSearchEngines c'
    = filter (λ engine, includes validSearchEngines engine = true)
             (allowedSearchEngines c)
  ∧ (allowedSearchEngines c' ≠ [] →
     defaultSearchEngine c' ∈ allowedSearchEngines c').
Proof.
  intros Hd. unfold validate_allowed.
  destruct (0 <? length (allowedSearchEngines c)) eqn:Hlen; simpl.
  - destruct (filter _ (allowedSearchEngines c)) as [|first rest] eqn:Hf;
      simpl; [done|].
    destruct (includes (first :: rest) (defaultSearchEngine c)) eqn:Hin;
      simpl.
    + split; [done|]. split; [done|]. intros _. by apply includes_true.
    + assert (Hfirst : first ∈ filter
                (λ engine, includes validSearchEngines engine = true)
                (allowedSearchEngines c))
        by (rewrite Hf; apply elem_of_cons; by left).
      apply list_elem_of_filter in Hfirst as [Hv _].
      split; [by apply includes_true|]. split; [done|].
      intros _. apply elem_of_cons. by left.
  - apply Nat.ltb_ge in Hlen.
    destruct (allowedSearchEngines c) as [|e l]; [done|].
    simpl in Hlen. lia.
Qed.

(** C10: once the module has been evaluated, [config.defaultSearchEngine]
    is one of the eight valid engines (an invalid value of the environment
    variable is first replaced by ["bing"]), every engine left in
    [config.allowedSearchEngines] is valid, and when that list is not
    empty it contains the default engine. *)
Theorem config_default_engine_valid (env : Env) :
  let c := config env in
  validSearchEngines
  = ["bing"; "duckduckgo"; "exa"; "brave"; "baidu"; "csdn"; "linuxdo";
     "juejin"]
  ∧ defaultSearchEngine c ∈ validSearchEngines
  ∧ (defaultSearchEngine (initial env) ∉ validSearchEngines →
     defaultSearchEngine (validate_default (initial env)) = "bing")
  ∧ (∀ e, e ∈ allowedSearchEngines c → e ∈ validSearchEngines)
  ∧ (allowedSearchEngines c ≠ [] →
     defaultSearchEngine c ∈ allowedSearchEngines c).
Proof.
  intros c. unfold c, config.
  destruct (validate_allowed_spec (validate_default (initial env))
              (validate_default_valid _)) as (Hv & Hf & Hin).
  split; [reflexivity|]. split; [done|]. split.
  { intros Hbad. unfold validate_default.
    destruct (includes _ _) eqn:E; [|done].
    by apply includes_true in E. }
  split; [|done].
  intros e He. rewrite Hf in He.
  apply list_elem_of_filter in He as [He _]. by apply includes_true.
Qed.

End ConfigSpec.

(** * Further properties of the multiplexer *)

Module MuxProps.
Import Js JsFacts Mux MuxFacts MuxTrace.

Section Props.

Variable isInitializeRequest : Json → bool.

Local Abbreviation post_mcp := (Mux.post_mcp isInitializeRequest).
Local Abbreviation step := (Mux.step isInitializeRequest).
Local Abbreviation run := (Mux.run isInitializeRequest).

(** Whenever a handler writes the response itself, the status is 400, the
    body is one of the three fixed refusals, and neither the tables nor
    the transport objects have changed. *)
Theorem own_answer_is_refusal e σ st p :
  (step e σ).2 = Some (Sent st p) →
  st = 400
  ∧ (step e σ).1 = σ
  ∧ (p = JsonBody no_valid_session_id
     ∨ p = TextBody "Invalid or missing session ID"
     ∨ p = TextBody "No transport found for sessionId").
Proof.
  destruct e as [req sdk|req sdk|req sdk|u|req|t|t]; simpl.
  - unfold Mux.post_mcp. destruct (truthy _ && truthy_value _).
    { by destruct (get_property _ _). }
    destruct (negb _ && _); simpl; [done|].
    intros [= <- <-]. repeat split; auto.
  - unfold handleSessionRequest. destruct (negb _ || negb _); simpl.
    + intros [= <- <-]. repeat split; auto.
    + by destruct (get_property _ _).
  - unfold handleSessionRequest. destruct (negb _ || negb _); simpl.
    + intros [= <- <-]. repeat split; auto.
    + by destruct (get_property _ _).
  - done.
  - unfold post_messages. destruct (get_property _ _); simpl; try done.
    intros [= <- <-]. repeat split; auto.
  - by destruct (heap σ !! t) as [[[] ? ?]|].
  - by destruct (heap σ !! t) as [[[] ? ?]|].
Qed.

(** A handler throws only when the id presented to it names a member
    inherited from [Object.prototype] that is not a key of the table it
    consults. *)
Theorem throw_only_on_inherited_id e σ :
  (step e σ).2 = Some TypeError →
  ∃ k, presented e = Some k
       ∧ k ∈ object_prototype_keys
       ∧ match e with
         | PostMessages _ => sse (transports σ) !! k = None
         | _ => streamable (transports σ) !! k = None
         end.
Proof.
  assert (Hinh : ∀ (tbl : gmap string nat) k,
    get_property tbl k = Inherited →
    k ∈ object_prototype_keys ∧ tbl !! k = None).
  { intros tbl k. unfold get_property.
    destruct (tbl !! k); [done|]. case_bool_decide; [done|done]. }
  destruct e as [req sdk|req sdk|req sdk|u|req|t|t]; simpl.
  - unfold Mux.post_mcp.
    destruct (get_property _ _) eqn:Hg; destruct (truthy _); simpl;
      try done; try (by destruct (isInitializeRequest _)).
    intros _. destruct (Hinh _ _ Hg). by eauto.
  - unfold handleSessionRequest.
    destruct (get_property _ _) eqn:Hg; destruct (truthy _); simpl;
      try done.
    intros _. destruct (Hinh _ _ Hg). by eauto.
  - unfold handleSessionRequest.
    destruct (get_property _ _) eqn:Hg; destruct (truthy _); simpl;
      try done.
    intros _. destruct (Hinh _ _ Hg). by eauto.
  - done.
  - unfold post_messages. destruct (get_property _ _) eqn:Hg; simpl; try done.
    intros _. destruct (Hinh _ _ Hg). by eauto.
  - by destruct (heap σ !! t) as [[[] ? ?]|].
  - by destruct (heap σ !! t) as [[[] ? ?]|].
Qed.

(** In every state the server can reach, a registered id resolves: on
    [/mcp] a request carrying an id of the streamable table is handed to
    the endpoint registered under it, whatever the method and the body; on
    [/messages] an id of the legacy table is handed to its endpoint and
    the server state is not touched. *)
Theorem registered_id_resolves tr s t req sdk :
  let σ := run tr init in
  (streamable (transports σ) !! s = Some t → mcp_session_id req = Some s →
   (post_mcp req sdk σ).2 = Delegated t HandleRequest
   ∧ (handleSessionRequest req sdk σ).2 = Delegated t HandleRequest)
  ∧ (sse (transports σ) !! s = Some t → query_sessionId req = Some s →
     post_messages req σ = (σ, Delegated t HandlePostMessage)).
Proof.
  intros σ.
  pose proof (run_init_consistent isInitializeRequest tr) as Hc.
  fold σ in Hc. split.
  - intros Hs Hreq.
    destruct (registered_key_plain σ s t Hc (or_introl Hs)) as [Hne _].
    unfold Mux.post_mcp, handleSessionRequest. rewrite Hreq.
    simpl property_key.
    rewrite (get_property_own _ _ _ Hs), (proj2 (truthy_Some s) Hne).
    done.
  - intros Hs Hreq. apply post_messages_known. by rewrite Hreq.
Qed.

(** A request on [/mcp] that carries a registered id [s] can change the
    server in one way only: if the SDK closes the endpoint while handling
    it, the entry of [s] is removed.  Every other entry of the streamable
    table, the legacy table and the transport objects stay as they are. *)
Theorem session_request_isolated tr s t req sdk e :
  let σ := run tr init in
  streamable (transports σ) !! s = Some t →
  mcp_session_id req = Some s →
  e ∈ [PostMcp req sdk; GetMcp req sdk; DeleteMcp req sdk] →
  (step e σ).1
  = if bool_decide (Close ∈ sdk) then set_streamable (delete s) σ else σ.
Proof.
  intros σ Hs Hreq He.
  pose proof (run_init_consistent isInitializeRequest tr) as Hc.
  fold σ in Hc.
  destruct (registered_key_plain σ s t Hc (or_introl Hs)) as [Hne _].
  destruct (proj1 Hc _ _ Hs) as [_ Hh].
  assert (E1 : (post_mcp req sdk σ).1 = handleRequest t sdk σ).
  { unfold Mux.post_mcp. rewrite Hreq. simpl property_key.
    by rewrite (get_property_own _ _ _ Hs), (proj2 (truthy_Some s) Hne). }
  assert (E2 : (handleSessionRequest req sdk σ).1 = handleRequest t sdk σ).
  { unfold handleSessionRequest. rewrite Hreq. simpl property_key.
    by rewrite (get_property_own _ _ _ Hs), (proj2 (truthy_Some s) Hne). }
  rewrite <- (handleRequest_ready _ sdk _ _ _ Hh Hne).
  rewrite !elem_of_cons in He.
  destruct He as [-> | [-> | [-> | He]]]; simpl; try done.
  by apply elem_of_nil in He.
Qed.

(** Opening a session and using it: when a POST without session id
    carries an initialization request and the SDK completes the handshake
    drawing [u] (and does not close the endpoint in the same request), the
    new endpoint is registered under [randomUUID u], and the next request
    on [/mcp] carrying that id is handed to that same endpoint. *)
Theorem new_session_usable tr req u sdk req' sdk' :
  let σ := run tr init in
  let t := length (heap σ) in
  let r := post_mcp req (SessionInitialized u :: sdk) σ in
  truthy (mcp_session_id req) = false →
  isInitializeRequest (body req) = true →
  Close ∉ sdk →
  mcp_session_id req' = Some (randomUUID u) →
  r.2 = Delegated t HandleRequest
  ∧ streamable (transports r.1) !! randomUUID u = Some t
  ∧ heap r.1 !! t
    = Some (mkTransport StreamableHTTPServerTransport
                        (Some (randomUUID u)) true)
  ∧ (post_mcp req' sdk' r.1).2 = Delegated t HandleRequest
  ∧ (handleSessionRequest req' sdk' r.1).2 = Delegated t HandleRequest.
Proof.
  intros σ t r Hh Hb Hcl Hreq'.
  set (fresh := mkTransport StreamableHTTPServerTransport None false).
  set (ready := mkTransport StreamableHTTPServerTransport
                            (Some (randomUUID u)) true).
  set (σ1 := set_heap (λ h, h ++ [fresh]) σ).
  set (σ2 := onsessioninitialized t (randomUUID u)
               (set_heap (<[t := ready]>) σ1)).
  assert (Hfresh : heap σ1 !! t = Some fresh)
    by (simpl; by apply list_lookup_middle).
  assert (Hcall : sdk_call t (SessionInitialized u) σ1 = σ2).
  { unfold sdk_call. rewrite Hfresh. simpl initialized.
    by rewrite randomUUID_truthy. }
  assert (Hready : heap σ2 !! t = Some ready).
  { simpl. apply list_lookup_insert_eq. rewrite length_app. simpl.
    unfold t. lia. }
  assert (Er : r = (σ2, Delegated t HandleRequest)).
  { assert (E0 : r = (handleRequest t (SessionInitialized u :: sdk) σ1,
                      Delegated t HandleRequest))
      by (unfold r, Mux.post_mcp; rewrite Hh, Hb; reflexivity).
    rewrite E0. f_equal.
    change (handleRequest t (SessionInitialized u :: sdk) σ1)
      with (handleRequest t sdk (sdk_call t (SessionInitialized u) σ1)).
    rewrite Hcall.
    rewrite (handleRequest_ready _ sdk _ _ _ Hready (randomUUID_nonempty u)).
    by rewrite bool_decide_eq_false_2. }
  rewrite Er. simpl.
  assert (Hs : streamable (transports σ2) !! randomUUID u = Some t)
    by (simpl; apply lookup_insert_eq).
  split; [done|]. split; [done|]. split; [done|].
  unfold Mux.post_mcp, handleSessionRequest. rewrite Hreq'.
  simpl property_key.
  by rewrite (get_property_own _ _ _ Hs), randomUUID_truthy.
Qed.

(** An endpoint serves one session only: in every reachable state no two
    ids of a table name the same endpoint, and no endpoint is named by
    both tables. *)
Theorem one_endpoint_one_session tr s1 s2 t :
  let σ := run tr init in
  (streamable (transports σ) !! s1 = Some t →
   streamable (transports σ) !! s2 = Some t → s1 = s2)
  ∧ (sse (transports σ) !! s1 = Some t →
     sse (transports σ) !! s2 = Some t → s1 = s2)
  ∧ (streamable (transports σ) !! s1 = Some t →
     sse (transports σ) !! s2 ≠ Some t).
Proof.
  intros σ.
  pose proof (run_init_consistent isInitializeRequest tr) as [H1 H2].
  fold σ in H1, H2. split; [|split].
  - intros Ha Hb. destruct (H1 _ _ Ha) as [_ Ea].
    destruct (H1 _ _ Hb) as [_ Eb]. congruence.
  - intros Ha Hb. destruct (H2 _ _ Ha) as [_ Ea].
    destruct (H2 _ _ Hb) as [_ Eb]. congruence.
  - intros Ha Hb. destruct (H1 _ _ Ha) as [_ Ea].
    destruct (H2 _ _ Hb) as [_ Eb]. congruence.
Qed.

(** Closing is idempotent: a second close of an endpoint, bidirectional or
    legacy, leaves the server exactly as the first one did, so removing an
    id that is already gone is no error. *)
Theorem close_idempotent σ t :
  let close2 e := (step e (step e σ).1).1 in
  close2 (TransportClose t) = (step (TransportClose t) σ).1
  ∧ close2 (ResClose t) = (step (ResClose t) σ).1.
Proof.
  assert (Hh1 : heap (onclose t σ) = heap σ).
  { unfold onclose. destruct (heap σ !! t) as [o|]; [|done].
    by destruct (truthy _). }
  assert (Hh2 : heap (on_res_close t σ) = heap σ).
  { unfold on_res_close. by destruct (heap σ !! t). }
  assert (Hi1 : onclose t (onclose t σ) = onclose t σ).
  { unfold onclose at 1. rewrite Hh1. unfold onclose.
    destruct (heap σ !! t) as [o|]; [|done].
    destruct (truthy (sessionId o)); [|done].
    unfold set_streamable; simpl. by rewrite delete_delete_eq. }
  assert (Hi2 : on_res_close t (on_res_close t σ) = on_res_close t σ).
  { unfold on_res_close at 1. rewrite Hh2. unfold on_res_close.
    destruct (heap σ !! t) as [o|]; [|done].
    unfold set_sse; simpl. by rewrite delete_delete_eq. }
  cbv zeta. unfold Mux.step. split.
  - destruct (heap σ !! t) as [[[] sid ini]|] eqn:Ht; simpl fst;
      rewrite ?Hh1, Ht; simpl fst; by rewrite ?Hi1.
  - destruct (heap σ !! t) as [[[] sid ini]|] eqn:Ht; simpl fst;
      rewrite ?Hh2, Ht; simpl fst; by rewrite ?Hi2.
Qed.

Lemma sdk_call_keeps_ready t' c σ t o :
  heap σ !! t = Some o → initialized o = true →
  heap (sdk_call t' c σ) !! t = Some o.
Proof.
  intros Ht Hi. destruct c as [u|]; simpl.
  - destruct (heap σ !! t') as [o'|] eqn:Ht'; [|done].
    destruct (initialized o') eqn:Hi'; [done|].
    rewrite ?randomUUID_truthy. simpl.
    rewrite list_lookup_insert_ne; [done|].
    intros ->. rewrite Ht in Ht'. injection Ht' as ->. congruence.
  - unfold onclose. destruct (heap σ !! t') as [o'|]; [|done].
    by destruct (truthy _).
Qed.

Lemma handleRequest_keeps_ready t' sdk σ t o :
  heap σ !! t = Some o → initialized o = true →
  heap (handleRequest t' sdk σ) !! t = Some o.
Proof.
  unfold handleRequest. revert σ.
  induction sdk as [|c sdk IH]; intros σ Ht Hi; simpl; [done|].
  apply IH; [by apply sdk_call_keeps_ready | done].
Qed.

Lemma step_keeps_ready e σ t o :
  heap σ !! t = Some o → initialized o = true →
  heap (step e σ).1 !! t = Some o.
Proof.
  intros Ht Hi. destruct e as [req sdk|req sdk|req sdk|u|req|t1|t1]; simpl.
  - unfold Mux.post_mcp. destruct (truthy _ && truthy_value _).
    { destruct (get_property _ _); simpl; try done.
      by apply handleRequest_keeps_ready. }
    destruct (negb _ && _); simpl; [|done].
    apply handleRequest_keeps_ready; [|done].
    simpl. by apply lookup_app_l_Some.
  - unfold handleSessionRequest. destruct (negb _ || negb _); [done|].
    destruct (get_property _ _); simpl; try done.
    by apply handleRequest_keeps_ready.
  - unfold handleSessionRequest. destruct (negb _ || negb _); [done|].
    destruct (get_property _ _); simpl; try done.
    by apply handleRequest_keeps_ready.
  - by apply lookup_app_l_Some.
  - unfold post_messages. by destruct (get_property _ _).
  - destruct (heap σ !! t1) as [[[] sid ini]|] eqn:Ht1; simpl; try done.
    unfold on_res_close. by rewrite Ht1.
  - destruct (heap σ !! t1) as [[[] sid ini]|] eqn:Ht1; simpl; try done.
    unfold onclose. rewrite Ht1. by destruct (truthy _).
Qed.

(** Once an endpoint has completed its handshake, its transport object,
    and with it the session id it carries, is the same at every later
    moment of the run, whatever requests and SDK callbacks follow. *)
Theorem initialized_endpoint_keeps_id tr σ t o :
  heap σ !! t = Some o → initialized o = true →
  heap (run tr σ) !! t = Some o.
Proof.
  revert σ. induction tr as [|e tr IH]; intros σ Ht Hi; simpl; [done|].
  apply IH; [by apply step_keeps_ready | done].
Qed.

Lemma run_frame tr σ s t :
  s ∉ drawn_in tr →
  streamable (transports (run tr σ)) !! s = Some t →
  streamable (transports σ) !! s = Some t.
Proof.
  revert σ. induction tr as [|e tr IH]; intros σ Hd; simpl; [done|].
  unfold drawn_in in Hd. simpl in Hd. rewrite elem_of_app in Hd.
  intros H. apply (step_frame isInitializeRequest e); [tauto|].
  apply IH; [|done]. unfold drawn_in. tauto.
Qed.

Lemma step_frame_legacy e σ s t :
  s ∉ drawn_legacy e →
  sse (transports (step e σ).1) !! s = Some t →
  sse (transports σ) !! s = Some t.
Proof.
  intros Hd. destruct e as [req sdk|req sdk|req sdk|u|req|t1|t1]; simpl.
  - by rewrite post_mcp_sse.
  - by rewrite handleSessionRequest_sse.
  - by rewrite handleSessionRequest_sse.
  - rewrite lookup_insert_ne; [done|].
    intros E. apply Hd. simpl. rewrite E. by apply list_elem_of_singleton.
  - by rewrite post_messages_state.
  - destruct (heap σ !! t1) as [[[] sid ini]|] eqn:Ht1; simpl; try done.
    unfold on_res_close. rewrite Ht1. simpl.
    by intros [_ H]%lookup_delete_Some.
  - destruct (heap σ !! t1) as [[[] sid ini]|] eqn:Ht1; simpl; try done.
    unfold onclose. rewrite Ht1. by destruct (truthy _).
Qed.

Lemma run_frame_legacy tr σ s t :
  s ∉ drawn_legacy_in tr →
  sse (transports (run tr σ)) !! s = Some t →
  sse (transports σ) !! s = Some t.
Proof.
  revert σ. induction tr as [|e tr IH]; intros σ Hd; simpl; [done|].
  unfold drawn_legacy_in in Hd. simpl in Hd. rewrite elem_of_app in Hd.
  intros H. apply (step_frame_legacy e); [tauto|].
  apply IH; [|done]. unfold drawn_legacy_in. tauto.
Qed.

(** A client cannot choose its session id: every id found in the
    streamable table was drawn by the SDK's generator during the run, and
    every id found in the legacy table was drawn by a GET [/sse]. *)
Theorem registered_ids_were_drawn tr s t :
  let σ := run tr init in
  (streamable (transports σ) !! s = Some t → s ∈ drawn_in tr)
  ∧ (sse (transports σ) !! s = Some t → s ∈ drawn_legacy_in tr).
Proof.
  intros σ. split; intros Hs.
  - destruct (decide (s ∈ drawn_in tr)) as [|Hd]; [done|].
    apply (run_frame tr init s t Hd) in Hs. simpl in Hs.
    by rewrite lookup_empty in Hs.
  - destruct (decide (s ∈ drawn_legacy_in tr)) as [|Hd]; [done|].
    apply (run_frame_legacy tr init s t Hd) in Hs. simpl in Hs.
    by rewrite lookup_empty in Hs.
Qed.

Lemma opened_state req u sdk σ :
  truthy (mcp_session_id req) = false →
  isInitializeRequest (body req) = true →
  Close ∉ sdk →
  let t := length (heap σ) in
  post_mcp req (SessionInitialized u :: sdk) σ
  = (onsessioninitialized t (randomUUID u)
       (set_heap (<[t := mkTransport StreamableHTTPServerTransport
                                     (Some (randomUUID u)) true]>)
          (set_heap (λ h, h ++ [mkTransport StreamableHTTPServerTransport
                                            None false]) σ)),
     Delegated t HandleRequest).
Proof.
  intros Hh Hb Hcl t.
  set (fresh := mkTransport StreamableHTTPServerTransport None false).
  set (ready := mkTransport StreamableHTTPServerTransport
                            (Some (randomUUID u)) true).
  set (σ1 := set_heap (λ h, h ++ [fresh]) σ).
  set (σ2 := onsessioninitialized t (randomUUID u)
               (set_heap (<[t := ready]>) σ1)).
  assert (Hfresh : heap σ1 !! t = Some fresh)
    by (simpl; by apply list_lookup_middle).
  assert (Hcall : sdk_call t (SessionInitialized u) σ1 = σ2).
  { unfold sdk_call. rewrite Hfresh. simpl initialized.
    by rewrite randomUUID_truthy. }
  assert (Hready : heap σ2 !! t = Some ready).
  { simpl. apply list_lookup_insert_eq. rewrite length_app. simpl.
    unfold t. lia. }
  assert (E0 : post_mcp req (SessionInitialized u :: sdk) σ
               = (handleRequest t (SessionInitialized u :: sdk) σ1,
                  Delegated t HandleRequest))
    by (unfold Mux.post_mcp; rewrite Hh, Hb; reflexivity).
  rewrite E0. f_equal.
  change (handleRequest t (SessionInitialized u :: sdk) σ1)
    with (handleRequest t sdk (sdk_call t (SessionInitialized u) σ1)).
  rewrite Hcall.
  rewrite (handleRequest_ready _ sdk _ _ _ Hready (randomUUID_nonempty u)).
  by rewrite bool_decide_eq_false_2.
Qed.

(** Opening a session and terminating it: when the id drawn for a new
    session was not in the streamable table, a DELETE carrying that id,
    during which the SDK closes the endpoint, puts both tables back
    exactly as they were before the session was opened. *)
Theorem open_then_delete_restores tr req u sdk req' sdk' :
  let σ := run tr init in
  let opened := (post_mcp req (SessionInitialized u :: sdk) σ).1 in
  let closed := (step (DeleteMcp req' sdk') opened).1 in
  truthy (mcp_session_id req) = false →
  isInitializeRequest (body req) = true →
  Close ∉ sdk →
  streamable (transports σ) !! randomUUID u = None →
  mcp_session_id req' = Some (randomUUID u) →
  Close ∈ sdk' →
  transports closed = transports σ.
Proof.
  intros σ opened closed Hh Hb Hcl Hnew Hreq' Hcl'.
  unfold closed, opened. rewrite (opened_state req u sdk σ Hh Hb Hcl).
  cbv zeta. simpl fst.
  set (t := length (heap σ)).
  set (σ2 := onsessioninitialized t _ _).
  assert (Hs : streamable (transports σ2) !! randomUUID u = Some t)
    by (simpl; apply lookup_insert_eq).
  assert (Hready : heap σ2 !! t
    = Some (mkTransport StreamableHTTPServerTransport
                        (Some (randomUUID u)) true)).
  { simpl. apply list_lookup_insert_eq. rewrite length_app. simpl.
    unfold t. lia. }
  assert (E : handleSessionRequest req' sdk' σ2
              = (set_streamable (delete (randomUUID u)) σ2,
                 Delegated t HandleRequest)).
  { unfold handleSessionRequest. rewrite Hreq'. simpl property_key.
    rewrite (get_property_own _ _ _ Hs), randomUUID_truthy. simpl.
    rewrite (handleRequest_ready _ _ _ _ _ Hready (randomUUID_nonempty u)).
    by rewrite bool_decide_eq_true_2. }
  simpl. rewrite E. simpl.
  rewrite (delete_insert_id _ _ _ Hnew). by destruct (transports σ).
Qed.

(** The same for the legacy route, in any state: when the id drawn by GET
    [/sse] was not in the legacy table, the close of that response puts
    both tables back exactly as they were. *)
Theorem sse_open_then_close_restores σ u :
  sse (transports σ) !! randomUUID u = None →
  transports (step (ResClose (length (heap σ))) (get_sse u σ).1).1
  = transports σ.
Proof.
  intros Hnew. simpl.
  rewrite (list_lookup_middle (heap σ) [] _ (length (heap σ)) eq_refl).
  unfold on_res_close. simpl.
  rewrite (list_lookup_middle (heap σ) [] _ (length (heap σ)) eq_refl).
  simpl. rewrite (delete_insert_id _ _ _ Hnew). by destruct (transports σ).
Qed.

(** A POST that opens an endpoint whose handshake the SDK does not
    complete registers nothing: both tables are as before, whatever else
    the SDK does with the endpoint during the request. *)
Theorem unfinished_handshake_registers_nothing σ req sdk :
  truthy (mcp_session_id req) = false →
  isInitializeRequest (body req) = true →
  drawn_by_sdk sdk = [] →
  (post_mcp req sdk σ).2 = Delegated (length (heap σ)) HandleRequest
  ∧ transports (post_mcp req sdk σ).1 = transports σ.
Proof.
  intros Hh Hb Hd. unfold Mux.post_mcp. rewrite Hh, Hb. simpl.
  split; [done|].
  set (σ1 := set_heap _ σ).
  assert (Hfresh : heap σ1 !! length (heap σ)
    = Some (mkTransport StreamableHTTPServerTransport None false))
    by (simpl; by apply list_lookup_middle).
  assert (E : handleRequest (length (heap σ)) sdk σ1 = σ1).
  { unfold handleRequest. induction sdk as [|c sdk IH]; [done|].
    destruct c as [u|]; [done|]. simpl.
    unfold onclose. rewrite Hfresh. simpl. by apply IH. }
  by rewrite E.
Qed.

End Props.

(** The premises of the theorems above, met on concrete runs. *)

Lemma own_answer_is_refusal_witness :
  let e := GetMcp (mkRequest None None JNull) [] in
  (step initialize_request_shape e init).2
  = Some (Sent 400 (TextBody "Invalid or missing session ID"))
  ∧ (step initialize_request_shape e init).1 = init.
Proof.
  intros e.
  assert (H : (step initialize_request_shape e init).2
              = Some (Sent 400 (TextBody "Invalid or missing session ID")))
    by reflexivity.
  destruct (own_answer_is_refusal initialize_request_shape e init _ _ H)
    as (_ & Hst & _).
  exact (conj H Hst).
Defined.

Lemma throw_only_on_inherited_id_witness :
  let e := PostMessages (mkRequest None (Some "toString") JNull) in
  (step initialize_request_shape e init).2 = Some TypeError
  ∧ ∃ k, presented e = Some k ∧ k ∈ object_prototype_keys.
Proof.
  intros e.
  assert (H : (step initialize_request_shape e init).2 = Some TypeError)
    by reflexivity.
  destruct (throw_only_on_inherited_id initialize_request_shape e init H)
    as (k & Hk & Hin & _).
  exact (conj H (ex_intro _ k (conj Hk Hin))).
Defined.

Lemma registered_id_resolves_witness :
  let tr := [PostMcp initialize_request [SessionInitialized uuid_a];
             GetSse uuid_b] in
  let σ := run initialize_request_shape tr init in
  let on_mcp := mkRequest (Some (randomUUID uuid_a)) None tools_call_body in
  let on_legacy := mkRequest None (Some (randomUUID uuid_b)) tools_call_body in
  (streamable (transports σ) !! randomUUID uuid_a = Some 0
   ∧ (post_mcp initialize_request_shape on_mcp [] σ).2
     = Delegated 0 HandleRequest)
  ∧ (sse (transports σ) !! randomUUID uuid_b = Some 1
     ∧ post_messages on_legacy σ = (σ, Delegated 1 HandlePostMessage)).
Proof.
  intros tr σ on_mcp on_legacy.
  assert (H1 : streamable (transports σ) !! randomUUID uuid_a = Some 0)
    by (vm_compute; reflexivity).
  assert (H2 : sse (transports σ) !! randomUUID uuid_b = Some 1)
    by (vm_compute; reflexivity).
  pose proof (registered_id_resolves initialize_request_shape tr
                (randomUUID uuid_a) 0 on_mcp []) as (P1 & _).
  pose proof (registered_id_resolves initialize_request_shape tr
                (randomUUID uuid_b) 1 on_legacy []) as (_ & P2).
  exact (conj (conj H1 (proj1 (P1 H1 eq_refl))) (conj H2 (P2 H2 eq_refl))).
Defined.

Lemma session_request_isolated_witness :
  let tr := [PostMcp initialize_request [SessionInitialized uuid_a];
             GetSse uuid_b] in
  let σ := run initialize_request_shape tr init in
  let s := randomUUID uuid_a in
  let req := mkRequest (Some s) None tools_call_body in
  (streamable (transports σ) !! s = Some 0
   ∧ PostMcp req [Close] ∈ [PostMcp req [Close]; GetMcp req [Close];
                            DeleteMcp req [Close]])
  ∧ (step initialize_request_shape (PostMcp req [Close]) σ).1
    = set_streamable (delete s) σ.
Proof.
  intros tr σ s req.
  assert (H1 : streamable (transports σ) !! s = Some 0)
    by (vm_compute; reflexivity).
  assert (H2 : PostMcp req [Close] ∈ [PostMcp req [Close]; GetMcp req [Close];
                                     DeleteMcp req [Close]])
    by (apply elem_of_cons; left; reflexivity).
  exact (conj (conj H1 H2)
           (session_request_isolated initialize_request_shape tr s 0 req [Close]
              (PostMcp req [Close]) H1 eq_refl H2)).
Defined.

Lemma new_session_usable_witness :
  let r := post_mcp initialize_request_shape initialize_request
                    [SessionInitialized uuid_a] init in
  let next := mkRequest (Some (randomUUID uuid_a)) None tools_call_body in
  (truthy (mcp_session_id initialize_request) = false
   ∧ initialize_request_shape (body initialize_request) = true
   ∧ Close ∉ [])
  ∧ r.2 = Delegated 0 HandleRequest
  ∧ streamable (transports r.1) !! randomUUID uuid_a = Some 0
  ∧ (post_mcp initialize_request_shape next [] r.1).2
    = Delegated 0 HandleRequest.
Proof.
  intros r next.
  assert (H3 : Close ∉ []) by (intros H; inversion H).
  destruct (new_session_usable initialize_request_shape [] initialize_request
              uuid_a [] next [] eq_refl eq_refl H3 eq_refl)
    as (Q1 & Q2 & _ & Q4 & _).
  exact (conj (conj eq_refl (conj eq_refl H3)) (conj Q1 (conj Q2 Q4))).
Defined.

Lemma one_endpoint_one_session_witness :
  let tr := [PostMcp initialize_request [SessionInitialized uuid_a];
             GetSse uuid_b] in
  let σ := run initialize_request_shape tr init in
  streamable (transports σ) !! randomUUID uuid_a = Some 0
  ∧ sse (transports σ) !! randomUUID uuid_b ≠ Some 0.
Proof.
  intros tr σ.
  assert (H1 : streamable (transports σ) !! randomUUID uuid_a = Some 0)
    by (vm_compute; reflexivity).
  pose proof (one_endpoint_one_session initialize_request_shape tr
                (randomUUID uuid_a) (randomUUID uuid_b) 0) as (_ & _ & P3).
  exact (conj H1 (P3 H1)).
Defined.

Lemma initialized_endpoint_keeps_id_witness :
  let σ := run initialize_request_shape
               [PostMcp initialize_request [SessionInitialized uuid_a]]
               init in
  let o := mkTransport StreamableHTTPServerTransport
                       (Some (randomUUID uuid_a)) true in
  let later := [PostMcp (mkRequest (Some (randomUUID uuid_a)) None
                                   initialize_body)
                        [SessionInitialized uuid_b; Close];
                GetSse uuid_b] in
  (heap σ !! 0 = Some o ∧ initialized o = true)
  ∧ heap (run initialize_request_shape later σ) !! 0 = Some o.
Proof.
  intros σ o later.
  assert (H1 : heap σ !! 0 = Some o) by (vm_compute; reflexivity).
  exact (conj (conj H1 eq_refl)
           (initialized_endpoint_keeps_id initialize_request_shape later σ 0 o
              H1 eq_refl)).
Defined.

Lemma registered_ids_were_drawn_witness :
  let tr := [PostMcp initialize_request [SessionInitialized uuid_a];
             GetSse uuid_b] in
  let σ := run initialize_request_shape tr init in
  (streamable (transports σ) !! randomUUID uuid_a = Some 0
   ∧ randomUUID uuid_a ∈ drawn_in tr)
  ∧ (sse (transports σ) !! randomUUID uuid_b = Some 1
     ∧ randomUUID uuid_b ∈ drawn_legacy_in tr).
Proof.
  intros tr σ.
  assert (H1 : streamable (transports σ) !! randomUUID uuid_a = Some 0)
    by (vm_compute; reflexivity).
  assert (H2 : sse (transports σ) !! randomUUID uuid_b = Some 1)
    by (vm_compute; reflexivity).
  pose proof (registered_ids_were_drawn initialize_request_shape tr
                (randomUUID uuid_a) 0) as (P1 & _).
  pose proof (registered_ids_were_drawn initialize_request_shape tr
                (randomUUID uuid_b) 1) as (_ & P2).
  exact (conj (conj H1 (P1 H1)) (conj H2 (P2 H2))).
Defined.

Lemma open_then_delete_restores_witness :
  let σ := run initialize_request_shape [GetSse uuid_b] init in
  let opened := (post_mcp initialize_request_shape initialize_request
                          [SessionInitialized uuid_a] σ).1 in
  let bye := mkRequest (Some (randomUUID uuid_a)) None JNull in
  ((Close ∉ [])
   ∧ streamable (transports σ) !! randomUUID uuid_a = None
   ∧ Close ∈ [Close])
  ∧ transports (step initialize_request_shape (DeleteMcp bye [Close]) opened).1
    = transports σ.
Proof.
  intros σ opened bye.
  assert (H3 : Close ∉ []) by (intros H; inversion H).
  assert (H4 : streamable (transports σ) !! randomUUID uuid_a = None)
    by (vm_compute; reflexivity).
  assert (H6 : Close ∈ [Close]) by (apply elem_of_cons; left; reflexivity).
  exact (conj (conj H3 (conj H4 H6))
           (open_then_delete_restores initialize_request_shape [GetSse uuid_b]
              initialize_request uuid_a [] bye [Close]
              eq_refl eq_refl H3 H4 eq_refl H6)).
Defined.

Lemma sse_open_then_close_restores_witness :
  sse (transports init) !! randomUUID uuid_a = None
  ∧ transports
      (step initialize_request_shape (ResClose 0) (get_sse uuid_a init).1).1
    = transports init.
Proof.
  assert (H : sse (transports init) !! randomUUID uuid_a = None)
    by reflexivity.
  exact (conj H (sse_open_then_close_restores initialize_request_shape init
                   uuid_a H)).
Defined.

Lemma unfinished_handshake_registers_nothing_witness :
  (truthy (mcp_session_id initialize_request) = false
   ∧ initialize_request_shape (body initialize_request) = true
   ∧ drawn_by_sdk [Close] = [])
  ∧ transports (post_mcp initialize_request_shape initialize_request [Close]
                         init).1
    = transports init.
Proof.
  destruct (unfinished_handshake_registers_nothing initialize_request_shape init
              initialize_request [Close] eq_refl eq_refl eq_refl) as (_ & Q).
  exact (conj (conj eq_refl (conj eq_refl eq_refl)) Q).
Defined.

End MuxProps.

(** * Strings: append, reversal, trimming and splitting *)

Module StringFacts.
Import Config JsLib.

Lemma app_nil_l (s : string) : "" +:+ s = s.
Proof. reflexivity. Qed.

Lemma app_cons (c : ascii) (a b : string) :
  String c a +:+ b = String c (a +:+ b).
Proof. reflexivity. Qed.

Lemma app_nil_r (s : string) : s +:+ "" = s.
Proof.
  induction s as [|c s IH]; [done|]. by rewrite app_cons, IH.
Qed.

Lemma app_assoc (a b c : string) : (a +:+ b) +:+ c = a +:+ b +:+ c.
Proof.
  induction a as [|x a IH]; [done|]. by rewrite !app_cons, IH.
Qed.

Lemma string_forall_app f (a b : string) :
  string_forall f (a +:+ b) = string_forall f a && string_forall f b.
Proof.
  induction a as [|x a IH]; [done|].
  rewrite app_cons. simpl. rewrite IH. by rewrite andb_assoc.
Qed.

Lemma rev_app_spec (a c : string) : String.rev_app a c = String.rev a +:+ c.
Proof.
  revert c. induction a as [|x a IH]; intros c; [done|].
  unfold String.rev. simpl. rewrite (IH (String x c)), (IH (String x "")).
  by rewrite app_assoc.
Qed.

Lemma rev_cons (x : ascii) (a : string) :
  String.rev (String x a) = String.rev a +:+ String x "".
Proof. unfold String.rev at 1. simpl. apply rev_app_spec. Qed.

Lemma rev_app_distr (a b : string) :
  String.rev (a +:+ b) = String.rev b +:+ String.rev a.
Proof.
  induction a as [|x a IH].
  - by rewrite app_nil_l, app_nil_r.
  - by rewrite app_cons, !rev_cons, IH, app_assoc.
Qed.

Lemma rev_involutive (s : string) : String.rev (String.rev s) = s.
Proof.
  induction s as [|x s IH]; [done|].
  by rewrite rev_cons, rev_app_distr, IH.
Qed.

Lemma string_forall_rev f (s : string) :
  string_forall f (String.rev s) = string_forall f s.
Proof.
  induction s as [|x s IH]; [done|].
  rewrite rev_cons, string_forall_app, IH. simpl.
  rewrite andb_true_r. apply andb_comm.
Qed.

Lemma first_char_app (a b : string) :
  a ≠ "" → first_char (a +:+ b) = first_char a.
Proof. by destruct a. Qed.

(** *** [trim_start] *)

Lemma trim_start_split (s : string) :
  ∃ l, s = l +:+ trim_start s ∧ string_forall is_white_space l = true.
Proof.
  induction s as [|c s (l & E & Hl)]; [by exists ""|].
  simpl. destruct (is_white_space c) eqn:Hc.
  - exists (String c l). rewrite app_cons, <- E. simpl. by rewrite Hc, Hl.
  - by exists "".
Qed.

Lemma trim_start_first (s : string) c :
  first_char (trim_start s) = Some c → is_white_space c = false.
Proof.
  induction s as [|x s IH]; [done|].
  simpl. destruct (is_white_space x) eqn:Hx; [done|].
  by intros [= <-].
Qed.

Lemma trim_start_white (l s : string) :
  string_forall is_white_space l = true →
  trim_start (l +:+ s) = trim_start s.
Proof.
  induction l as [|x l IH]; [done|].
  rewrite app_cons. simpl. intros [Hx Hl]%andb_true_iff.
  rewrite Hx. by apply IH.
Qed.

Lemma trim_start_all_white (l : string) :
  string_forall is_white_space l = true → trim_start l = "".
Proof.
  intros H. rewrite <- (app_nil_r l). by rewrite trim_start_white.
Qed.

Lemma trim_start_id (s : string) :
  (∀ c, first_char s = Some c → is_white_space c = false) →
  trim_start s = s.
Proof.
  destruct s as [|x s]; [done|]. intros H. simpl. by rewrite (H x).
Qed.

(** *** [split_comma] and [join] *)

Lemma split_comma_nonempty (s : string) : split_comma s ≠ [].
Proof.
  induction s as [|c s IH]; [done|]. simpl.
  destruct (Ascii.eqb c ","); [done|]. by destruct (split_comma s).
Qed.

Lemma join_cons sep (x : string) (l : list string) :
  l ≠ [] → join sep (x :: l) = x +:+ sep +:+ join sep l.
Proof. by destruct l. Qed.

End StringFacts.

(** * Further properties of configuration loading *)

Module ConfigProps.
Import Config JsLib StringFacts ConfigSpec.

Lemma join_split_cons (c : ascii) (s : string) :
  Ascii.eqb c "," = false →
  join "," (split_comma (String c s)) = String c (join "," (split_comma s)).
Proof.
  intros Hc. simpl. rewrite Hc.
  destruct (split_comma s) as [|w ws] eqn:E.
  { by destruct (split_comma_nonempty s). }
  destruct ws as [|w' ws]; [done|]. rewrite !join_cons by done.
  reflexivity.
Qed.

(** [s.split(',')] never returns an empty array, none of its pieces
    contains a comma, and joining the pieces with commas gives [s] back:
    empty pieces are kept, nothing is dropped or reordered. *)
Theorem split_comma_join (s : string) :
  join "," (split_comma s) = s
  ∧ split_comma s ≠ []
  ∧ Forall (λ w, no_comma w = true) (split_comma s).
Proof.
  split; [|split; [apply split_comma_nonempty|]].
  - induction s as [|c s IH]; [done|].
    destruct (Ascii.eqb c ",") eqn:Hc.
    + apply Ascii.eqb_eq in Hc as ->.
      change (split_comma (String "," s)) with ("" :: split_comma s).
      rewrite join_cons by apply split_comma_nonempty. by rewrite IH.
    + by rewrite join_split_cons, IH.
  - induction s as [|c s IH]; [by repeat constructor|].
    simpl. destruct (Ascii.eqb c ",") eqn:Hc; [by constructor|].
    destruct (split_comma s) as [|w ws] eqn:E.
    { by destruct (split_comma_nonempty s). }
    inversion IH as [|? ? Hw Hws]; subst. constructor; [|done].
    unfold no_comma in *. simpl. by rewrite Hc, Hw.
Qed.

Lemma split_comma_piece (w rest : string) :
  no_comma w = true →
  split_comma (w +:+ "," +:+ rest) = w :: split_comma rest.
Proof.
  unfold no_comma. induction w as [|c w IH]; [done|].
  intros H. simpl in H. apply andb_true_iff in H as [Hc Hw].
  apply negb_true_iff in Hc.
  rewrite app_cons. simpl. rewrite Hc. by rewrite (IH Hw).
Qed.

Lemma split_comma_single (w : string) :
  no_comma w = true → split_comma w = [w].
Proof.
  unfold no_comma. induction w as [|c w IH]; [done|].
  intros H. simpl in H. apply andb_true_iff in H as [Hc Hw].
  apply negb_true_iff in Hc.
  simpl. rewrite Hc. by rewrite (IH Hw).
Qed.

Lemma split_join_inverse (l : list string) :
  l ≠ [] → Forall (λ w, no_comma w = true) l →
  split_comma (join "," l) = l.
Proof.
  induction l as [|w l IH]; [done|]. intros _ Hall.
  inversion Hall as [|? ? Hw Hl]; subst.
  destruct l as [|w' l]; [by apply split_comma_single|].
  rewrite join_cons by done. rewrite split_comma_piece by done.
  by rewrite IH.
Qed.

(** Splitting undoes joining: a non-empty list of pieces without commas,
    joined with commas and split again, is the same list, piece for
    piece. *)
Theorem split_comma_of_join (l : list string) :
  l ≠ [] → Forall (λ w, no_comma w = true) l →
  split_comma (join "," l) = l
  ∧ length (split_comma (join "," l)) = length l.
Proof.
  intros Hne Hall. rewrite (split_join_inverse l Hne Hall). done.
Qed.

Lemma trim_wrapped (l w r : string) :
  white l = true → white r = true → tight w = true →
  trim (l +:+ w +:+ r) = w.
Proof.
  unfold white, tight, starts_tight. intros Hl Hr [Hf Hb]%andb_true_iff.
  unfold trim. rewrite (trim_start_white l _ Hl).
  destruct w as [|c w].
  { rewrite app_nil_l, (trim_start_all_white r Hr). done. }
  rewrite (trim_start_id (String c w +:+ r)).
  2:{ rewrite app_cons. simpl. intros ? [= <-]. simpl in Hf.
      by apply negb_true_iff. }
  rewrite rev_app_distr, trim_start_white by (by rewrite string_forall_rev).
  rewrite trim_start_id; [apply rev_involutive|].
  intros x Hx. rewrite Hx in Hb. by apply negb_true_iff.
Qed.

(** [trim] removes white space, and nothing else, from both ends: a
    string without white space at its ends, wrapped in any white space,
    is trimmed back to itself, and is itself left as it is. *)
Theorem trim_padded (l w r : string) :
  white l = true → white r = true → tight w = true →
  trim (l +:+ w +:+ r) = w ∧ trim w = w.
Proof.
  intros Hl Hr Hw. split; [by apply trim_wrapped|].
  rewrite <- (app_nil_r w) at 1. by apply (trim_wrapped "" w "").
Qed.

(** What [trim] returns for any string [s]: [s] is some white space, then
    [trim s], then some white space; [trim s] has no white space at either
    end; and trimming twice is trimming once. *)
Theorem trim_spec (s : string) :
  (∃ l r, s = l +:+ trim s +:+ r ∧ white l = true ∧ white r = true)
  ∧ tight (trim s) = true
  ∧ trim (trim s) = trim s.
Proof.
  destruct (trim_start_split s) as (l & El & Hl).
  destruct (trim_start_split (String.rev (trim_start s))) as (l' & El' & Hl').
  assert (Ea : trim_start s = trim s +:+ String.rev l').
  { rewrite <- (rev_involutive (trim_start s)). rewrite El' at 1.
    by rewrite rev_app_distr. }
  assert (Ht : tight (trim s) = true).
  { unfold tight, starts_tight. apply andb_true_iff. split.
    - destruct (trim s) as [|c w] eqn:E; [done|].
      simpl. apply negb_true_iff, (trim_start_first s).
      by rewrite Ea.
    - unfold trim. rewrite rev_involutive.
      destruct (first_char _) as [c|] eqn:E; [|done].
      apply negb_true_iff. by eapply trim_start_first. }
  split; [|split; [done|]].
  - exists l, (String.rev l'). split; [by rewrite <- Ea|].
    split; [done|]. unfold white. by rewrite string_forall_rev.
  - rewrite <- (app_nil_r (trim s)) at 1.
    by apply (trim_wrapped "" (trim s) "").
Qed.

Lemma white_no_comma (l : string) : white l = true → no_comma l = true.
Proof.
  unfold white, no_comma. induction l as [|c l IH]; [done|].
  simpl. intros [Hc Hl]%andb_true_iff. rewrite (IH Hl), andb_true_r.
  apply negb_true_iff, Ascii.eqb_neq. by intros ->.
Qed.

Lemma written_no_comma (e : Entry) : well_formed e → no_comma (written e) = true.
Proof.
  intros (Hb & Ha & _ & Hw & _). unfold written, no_comma.
  rewrite !string_forall_app.
  apply white_no_comma in Hb, Ha. unfold no_comma in *.
  by rewrite Hb, Hw, Ha.
Qed.

Lemma written_nonempty (e : Entry) : well_formed e → written e ≠ "".
Proof.
  intros (_ & _ & _ & _ & Hw). unfold written.
  destruct (before e); [|done]. rewrite app_nil_l. by destruct (word e).
Qed.

Lemma join_nonempty (x : string) (l : list string) :
  x ≠ "" → join "," (x :: l) ≠ "".
Proof.
  intros Hx. destruct l as [|y l]; [done|].
  rewrite join_cons by done. by destruct x.
Qed.

Lemma filter_all {A} (P : A → Prop) `{∀ x, Decision (P x)} (l : list A) :
  Forall P l → filter P l = l.
Proof.
  induction 1 as [|x l Hx _ IH]; [done|].
  by rewrite filter_cons_True, IH.
Qed.

Lemma validate_default_allowed c :
  allowedSearchEngines (validate_default c) = allowedSearchEngines c.
Proof. unfold validate_default. by destruct (negb _). Qed.

(** How [ALLOWED_SEARCH_ENGINES] is read: when the variable holds words
    separated by commas, each with any white space around it, the list of
    allowed engines before validation is exactly the words, in order and
    with repetitions, and after validation the valid ones among them. *)
Theorem allowed_engines_parsed (env : Env) (entries : list Entry) :
  entries ≠ [] →
  Forall well_formed entries →
  ALLOWED_SEARCH_ENGINES env = Some (join "," (written <$> entries)) →
  allowedSearchEngines (initial env) = word <$> entries
  ∧ allowedSearchEngines (config env)
    = filter (λ engine, includes validSearchEngines engine = true)
             (word <$> entries).
Proof.
  intros Hne Hall Henv.
  assert (Hinit : allowedSearchEngines (initial env) = word <$> entries).
  { unfold initial. simpl. rewrite Henv. simpl Js.property_key.
    assert (Htruthy : Js.truthy (Some (join "," (written <$> entries)))
                      = true).
    { apply JsFacts.truthy_Some. destruct entries as [|e es]; [done|].
      rewrite fmap_cons. apply join_nonempty, written_nonempty.
      by inversion Hall. }
    rewrite Htruthy, split_join_inverse.
    - rewrite <- list_fmap_compose. apply Forall_fmap_ext.
      eapply Forall_impl; [exact Hall|].
      intros e (Hb & Ha & Ht & _). by apply trim_wrapped.
    - by destruct entries.
    - apply Forall_fmap. eapply Forall_impl; [exact Hall|].
      intros e. apply written_no_comma. }
  split; [done|]. unfold config.
  destruct (validate_allowed_spec (validate_default (initial env))
              (validate_default_valid _)) as (_ & -> & _).
  by rewrite validate_default_allowed, Hinit.
Qed.

(** Validation is stable: running either validation step again on the
    loaded configuration changes nothing. *)
Theorem config_stable (env : Env) :
  validate_default (config env) = config env
  ∧ validate_allowed (config env) = config env.
Proof.
  unfold config.
  destruct (validate_allowed_spec (validate_default (initial env))
              (validate_default_valid _)) as (Hv & Hf & Hin).
  set (c := validate_allowed (validate_default (initial env))) in *.
  assert (Hvalid : Forall (λ engine, includes validSearchEngines engine = true)
                          (allowedSearchEngines c)).
  { rewrite Hf. apply Forall_forall. intros e He.
    by apply list_elem_of_filter in He as [He _]. }
  split.
  - unfold validate_default. by rewrite (proj2 (includes_true _ _) Hv).
  - unfold validate_allowed. rewrite (filter_all _ _ Hvalid).
    assert (Eid : with_allowed (allowedSearchEngines c) c = c)
      by (by destruct c).
    rewrite Eid.
    destruct (allowedSearchEngines c) as [|first rest] eqn:El; [done|].
    simpl. by rewrite (proj2 (includes_true _ _) (Hin ltac:(done))).
Qed.

Lemma validate_allowed_default c :
  defaultSearchEngine (validate_allowed c) = defaultSearchEngine c
  ∨ allowedSearchEngines (validate_allowed c) ≠ []
    ∧ defaultSearchEngine c ∉ allowedSearchEngines (validate_allowed c).
Proof.
  unfold validate_allowed. destruct (0 <? _); [|by left].
  remember (filter (λ engine, includes validSearchEngines engine = true)
                   (allowedSearchEngines c)) as F eqn:EF.
  simpl. destruct F as [|first rest]; [by left|].
  destruct (includes (first :: rest) (defaultSearchEngine c)) eqn:Hi; simpl;
    [by left|].
  right. split; [done|]. intros Hin%includes_true. congruence.
Qed.

(** When the requested default engine is honoured: the loaded default is
    the value of [DEFAULT_SEARCH_ENGINE] (or ["bing"] when that is unset
    or empty) exactly when that value is a valid engine and the list of
    allowed engines is empty or contains it. *)
Theorem default_engine_honoured (env : Env) :
  let requested := or_default (DEFAULT_SEARCH_ENGINE env) "bing" in
  let c := config env in
  defaultSearchEngine c = requested
  ↔ requested ∈ validSearchEngines
    ∧ (allowedSearchEngines c = [] ∨ requested ∈ allowedSearchEngines c).
Proof.
  intros requested c. unfold c, config.
  destruct (validate_allowed_spec (validate_default (initial env))
              (validate_default_valid _)) as (Hv & Hf & Hin).
  split.
  - intros E. rewrite E in Hv, Hin. split; [done|].
    destruct (allowedSearchEngines _) as [|e l]; [by left|].
    right. by apply Hin.
  - intros [Hreq Hallowed].
    assert (Ed : validate_default (initial env) = initial env).
    { unfold validate_default.
      change (defaultSearchEngine (initial env)) with requested.
      by rewrite (proj2 (includes_true _ _) Hreq). }
    rewrite Ed in *.
    destruct (validate_allowed_default (initial env)) as [E | [Hne Hout]];
      [done|].
    by destruct Hallowed.
Qed.

(** The premises of the theorems above, met on concrete inputs. *)

Lemma split_comma_of_join_witness :
  let l := ["bing"; ""; " exa"] in
  (l ≠ [] ∧ Forall (λ w, no_comma w = true) l)
  ∧ split_comma "bing,, exa" = l.
Proof.
  intros l.
  assert (H1 : l ≠ []) by discriminate.
  assert (H2 : Forall (λ w, no_comma w = true) l)
    by (repeat constructor).
  exact (conj (conj H1 H2) (proj1 (split_comma_of_join l H1 H2))).
Defined.

Lemma trim_padded_witness :
  (white "  " = true ∧ white " " = true ∧ tight "brave search" = true)
  ∧ trim "  brave search " = "brave search".
Proof.
  exact (conj (conj eq_refl (conj eq_refl eq_refl))
           (proj1 (trim_padded "  " "brave search" " "
                               eq_refl eq_refl eq_refl))).
Defined.

Lemma allowed_engines_parsed_witness :
  let entries := [mkEntry " " "exa" " "; mkEntry "" "foo" "";
                  mkEntry "" "brave" " "] in
  let env := mkEnv None (Some " exa ,foo,brave ") None None None None None in
  (entries ≠ [] ∧ Forall well_formed entries
   ∧ ALLOWED_SEARCH_ENGINES env = Some (join "," (written <$> entries)))
  ∧ allowedSearchEngines (initial env) = ["exa"; "foo"; "brave"]
  ∧ allowedSearchEngines (config env) = ["exa"; "brave"].
Proof.
  intros entries env.
  assert (H1 : entries ≠ []) by discriminate.
  assert (H2 : Forall well_formed entries)
    by (repeat constructor; discriminate).
  assert (H3 : ALLOWED_SEARCH_ENGINES env
               = Some (join "," (written <$> entries))) by reflexivity.
  exact (conj (conj H1 (conj H2 H3)) (allowed_engines_parsed env entries H1 H2 H3)).
Defined.

End ConfigProps.

(** * The proxy URL and the start-up decisions *)

Module BootstrapProps.
Import Config JsLib Bootstrap StringFacts ConfigSpec.

(** Validation only ever changes the two engine settings. *)
Lemma config_other_settings (env : Env) :
  proxyUrl (config env) = proxyUrl (initial env)
  ∧ useProxy (config env) = useProxy (initial env)
  ∧ enableCors (config env) = enableCors (initial env)
  ∧ corsOrigin (config env) = corsOrigin (initial env)
  ∧ enableHttpServer (config env) = enableHttpServer (initial env).
Proof.
  unfold config, validate_allowed, validate_default.
  destruct (negb (includes validSearchEngines _));
    destruct (0 <? _); simpl; try done;
    destruct (filter _ _); simpl; try done;
    by destruct (negb (includes _ _)).
Qed.

Lemma hex_upper_unescaped (n : N) : uri_unescaped (hex_upper n) = true.
Proof.
  unfold hex_upper.
  assert (H : (n mod 16 < 16)%N) by (apply N.mod_lt; lia).
  destruct (n mod 16)%N as [|p]; [done|].
  do 4 (destruct p as [p|p|]; try done); lia.
Qed.

Lemma encode_unit_safe (c : ascii) :
  string_forall (λ x, uri_unescaped x || Ascii.eqb x "%") (encode_unit c)
  = true.
Proof.
  unfold encode_unit. destruct (uri_unescaped c) eqn:Hc.
  - simpl. by rewrite Hc.
  - destruct (_ <? _)%N; unfold percent; rewrite ?app_cons, ?app_nil_l;
      simpl; by rewrite !hex_upper_unescaped.
Qed.

(** [encodeURI] works character by character; its result is made of
    characters that need no escaping and of percent signs; a string of
    such unescaped characters is returned as it is; and a percent sign of
    the input is itself escaped, so an already escaped URL is escaped a
    second time. *)
Theorem encodeURI_spec (a b : string) :
  encodeURI (a +:+ b) = encodeURI a +:+ encodeURI b
  ∧ string_forall (λ x, uri_unescaped x || Ascii.eqb x "%") (encodeURI a)
    = true
  ∧ (string_forall uri_unescaped a = true → encodeURI a = a)
  ∧ encodeURI (a +:+ "%" +:+ b) = encodeURI a +:+ "%25" +:+ encodeURI b.
Proof.
  assert (Happ : ∀ x y, encodeURI (x +:+ y) = encodeURI x +:+ encodeURI y).
  { intros x y. induction x as [|c x IH]; [done|].
    rewrite app_cons. simpl. by rewrite IH, app_assoc. }
  split; [apply Happ|]. split; [|split].
  - induction a as [|c a IH]; [done|].
    simpl. by rewrite string_forall_app, encode_unit_safe, IH.
  - induction a as [|c a IH]; [done|].
    simpl. intros [Hc Ha]%andb_true_iff.
    unfold encode_unit. by rewrite Hc, app_cons, app_nil_l, IH.
  - by rewrite !Happ.
Qed.

(** [getProxyUrl] returns [undefined] unless [USE_PROXY] is exactly
    ["true"]; otherwise it returns the escaped [PROXY_URL], and when that
    variable is unset or empty the built-in address, unchanged. *)
Theorem getProxyUrl_spec (env : Env) :
  let c := config env in
  (getProxyUrl c = None ↔ USE_PROXY env ≠ Some "true")
  ∧ (USE_PROXY env = Some "true" →
     getProxyUrl c
     = Some (encodeURI (or_default (PROXY_URL env) "http://127.0.0.1:10809")))
  ∧ (USE_PROXY env = Some "true" → Js.truthy (PROXY_URL env) = false →
     getProxyUrl c = Some "http://127.0.0.1:10809").
Proof.
  intros c. unfold getProxyUrl, c.
  destruct (config_other_settings env) as (-> & -> & _).
  simpl. unfold strict_eq. split; [|split].
  - case_bool_decide; split; done.
  - intros ->. by rewrite bool_decide_eq_true_2.
  - intros -> Hp. rewrite bool_decide_eq_true_2 by done.
    unfold or_default. rewrite Hp. by destruct (PROXY_URL env).
Qed.

Ltac unfold_members :=
  repeat match goal with
         | H : _ ∈ _ |- _ => rewrite !elem_of_cons, elem_of_nil in H
         | H : _ ∉ _ |- _ => rewrite !elem_of_cons, elem_of_nil in H
         end.

Ltac settle_mode :=
  first
    [ by intuition congruence
    | by (intros (? & [= <-] & Hn);
          rewrite !elem_of_cons, elem_of_nil in Hn; intuition congruence)
    | by (intros ?; eexists; split; [reflexivity|];
          rewrite !elem_of_cons, elem_of_nil; intuition congruence) ].

(** Which transports [main] starts, by the value of [MODE]: stdio when it
    is unset, ["both"] or ["stdio"]; HTTP when it is unset, empty,
    ["both"] or ["http"]; hence neither for any other non-empty value,
    and HTTP alone for the empty string. *)
Theorem transports_started (env : Env) :
  let http := enableHttpServer (config env) in
  (stdio_enabled env = true
   ↔ MODE env = None ∨ MODE env = Some "both" ∨ MODE env = Some "stdio")
  ∧ (http = true
     ↔ MODE env = None ∨ MODE env = Some "" ∨ MODE env = Some "both"
       ∨ MODE env = Some "http")
  ∧ (stdio_enabled env = false ∧ http = false
     ↔ ∃ m, MODE env = Some m ∧ m ∉ [""; "both"; "http"; "stdio"]).
Proof.
  intros http. unfold http, stdio_enabled, strict_eq.
  destruct (config_other_settings env) as (_ & _ & _ & _ & ->).
  simpl. unfold includes.
  destruct (MODE env) as [m|]; simpl.
  - destruct (Js.truthy (Some m)) eqn:Ht.
    + apply JsFacts.truthy_Some in Ht.
      repeat case_bool_decide; simplify_eq; simpl; unfold_members;
        (split; [|split]); split; settle_mode.
    + apply JsFacts.truthy_false in Ht as [? | [= ->]]; [done|].
      simpl. (split; [|split]); split; settle_mode.
  - (split; [|split]); split; try (by intuition congruence).
    intros (? & ? & _). congruence.
Qed.

(** The origin handed to [cors] is the configured one: it is never empty,
    so the second fallback to ['*'] in [main] never applies; it is
    [CORS_ORIGIN] when that is set and not empty and ['*'] otherwise; and
    CORS is on exactly when [ENABLE_CORS] is ["true"]. *)
Theorem cors_origin_spec (env : Env) :
  let c := config env in
  cors_origin c = corsOrigin c
  ∧ corsOrigin c ≠ ""
  ∧ corsOrigin c = or_default (CORS_ORIGIN env) "*"
  ∧ (enableCors c = true ↔ ENABLE_CORS env = Some "true").
Proof.
  intros c. unfold c, cors_origin.
  destruct (config_other_settings env) as (_ & _ & -> & -> & _). simpl.
  assert (Hne : or_default (CORS_ORIGIN env) "*" ≠ "").
  { unfold or_default. destruct (CORS_ORIGIN env) as [o|]; [|done].
    destruct (Js.truthy (Some o)) eqn:Ht; [|done].
    by apply JsFacts.truthy_Some. }
  split; [|split; [done|split; [done|]]].
  - remember (or_default (CORS_ORIGIN env) "*") as o eqn:Eo.
    unfold or_default. by rewrite (proj2 (JsFacts.truthy_Some _) Hne).
  - unfold strict_eq. apply bool_decide_eq_true.
Qed.

(** *** [parseInt] and the port *)

Lemma parseInt10_cases (s : string) :
  (∃ r, trim_start s = String "-" r ∧ parseInt10 s = read_digits true r)
  ∨ (∃ r, trim_start s = String "+" r ∧ parseInt10 s = read_digits false r)
  ∨ parseInt10 s = read_digits false (trim_start s)
    ∧ first_char (trim_start s) ≠ Some "-"%char
    ∧ first_char (trim_start s) ≠ Some "+"%char.
Proof.
  unfold parseInt10. destruct (trim_start s) as [|c r].
  { right. right. done. }
  destruct c as [[] [] [] [] [] [] [] []];
    first [ by (left; eexists)
          | by (right; left; eexists)
          | by (right; right) ].
Qed.

Lemma digit_pretty_char (d : N) :
  (d < 10)%N → digit (pretty_N_char d) = Some d.
Proof.
  intros H. destruct d as [|p]; [done|].
  do 4 (destruct p as [p|p|]; try done); lia.
Qed.

Lemma pretty_go_app (x : N) (s r : string) :
  pretty_N_go x s +:+ r = pretty_N_go x (s +:+ r).
Proof.
  revert s. induction (N.lt_wf_0 x) as [x _ IH]; intros s.
  destruct (decide (0 < x)%N) as [Hx|Hx].
  - rewrite (pretty_N_go_step x s), (pretty_N_go_step x (s +:+ r)) by done.
    rewrite IH by (by apply N.div_lt). by rewrite app_cons.
  - assert (x = 0%N) as -> by lia. by rewrite !pretty_N_go_0.
Qed.

Lemma pretty_go_first (x : N) (s : string) :
  (0 < x)%N →
  ∃ d t, (d < 10)%N ∧ pretty_N_go x s = String (pretty_N_char d) t.
Proof.
  revert s. induction (N.lt_wf_0 x) as [x _ IH]; intros s Hx.
  rewrite pretty_N_go_step by done.
  pose proof (N.div_lt x 10 Hx eq_refl) as Hlt.
  destruct (x `div` 10)%N as [|q] eqn:Hq.
  - rewrite pretty_N_go_0.
    exists (x `mod` 10)%N, s. split; [|done]. by apply N.mod_lt.
  - by apply IH.
Qed.

Lemma pretty_go_digits (x : N) (s : string) :
  (0 < x)%N →
  leading_digits None (pretty_N_go x s) = leading_digits (Some x) s.
Proof.
  revert s. induction (N.lt_wf_0 x) as [x _ IH]; intros s Hx.
  rewrite pretty_N_go_step by done.
  assert (Hm : (x `mod` 10 < 10)%N) by (by apply N.mod_lt).
  pose proof (N.div_mod x 10 ltac:(done)) as Hdm.
  pose proof (N.div_lt x 10 Hx eq_refl) as Hlt.
  destruct (x `div` 10)%N as [|q] eqn:Hq.
  - rewrite pretty_N_go_0. simpl.
    rewrite (digit_pretty_char _ Hm). simpl.
    do 2 f_equal. rewrite Hdm at 2. lia.
  - rewrite IH by done. simpl.
    rewrite (digit_pretty_char _ Hm). simpl. by rewrite <- Hdm.
Qed.

Lemma pretty_first_digit (n : N) :
  ∃ d t, (d < 10)%N ∧ pretty n = String (pretty_N_char d) t.
Proof.
  unfold pretty, pretty_N. case_decide as Hn.
  - by exists 0%N, "".
  - apply pretty_go_first. lia.
Qed.

Lemma pretty_digits (n : N) (rest : string) :
  leading_digits None (pretty n +:+ rest) = leading_digits (Some n) rest.
Proof.
  unfold pretty, pretty_N. case_decide as Hn.
  - by subst.
  - rewrite pretty_go_app, app_nil_l. apply pretty_go_digits. lia.
Qed.

Lemma leading_digits_stop (acc : option N) (s : string) :
  no_digit_first s = true → leading_digits acc s = acc.
Proof.
  unfold no_digit_first, is_digit. destruct s as [|c s]; [done|].
  simpl. by destruct (digit c).
Qed.

Lemma trim_start_forall f (s : string) :
  string_forall f s = true → string_forall f (trim_start s) = true.
Proof.
  induction s as [|c s IH]; [done|]. simpl.
  destruct (is_white_space c); [|done].
  intros [_ H]%andb_true_iff. by apply IH.
Qed.

(** The value of the constant [PORT] that [main] hands to [app.listen]
    (whether the listener accepts that value is not stated here).
    Without the variable, or with an empty one, it is 3000.  A decimal
    numeral is read as its value, white space in front of it and anything
    that is not a digit behind it being ignored (the bound keeps the value
    within what a double holds exactly).  A non-empty variable without any
    digit gives [NaN], not 3000. *)
Theorem PORT_spec (pad rest s : string) (n : N) :
  PORT None = Int 3000
  ∧ PORT (Some "") = Int 3000
  ∧ (white pad = true → no_digit_first rest = true → (n < 2 ^ 53)%N →
     PORT (Some (pad +:+ pretty n +:+ rest)) = Int (Z.of_N n))
  ∧ (s ≠ "" → string_forall (λ c, negb (is_digit c)) s = true →
     PORT (Some s) = NaN).
Proof.
  split; [done|]. split; [done|]. split.
  - intros Hpad Hrest _.
    destruct (pretty_first_digit n) as (d & t & Hd & Ep).
    assert (Hws : is_white_space (pretty_N_char d) = false).
    { destruct d as [|p]; [done|].
      do 4 (destruct p as [p|p|]; try done); lia. }
    assert (Hne : pad +:+ pretty n +:+ rest ≠ "").
    { rewrite Ep. destruct pad; [|done]. by rewrite app_nil_l, app_cons. }
    unfold PORT. rewrite (proj2 (JsFacts.truthy_Some _) Hne).
    simpl Js.property_key.
    assert (Et : trim_start (pad +:+ pretty n +:+ rest)
                 = pretty n +:+ rest).
    { rewrite trim_start_white by done. apply trim_start_id.
      rewrite Ep, app_cons. simpl. by intros ? [= <-]. }
    destruct (parseInt10_cases (pad +:+ pretty n +:+ rest))
      as [(r & E & _) | [(r & E & _) | (-> & _ & _)]].
    + rewrite Et, Ep, app_cons in E. injection E as E _.
      destruct d as [|p]; [done|].
      do 4 (destruct p as [p|p|]; try done); lia.
    + rewrite Et, Ep, app_cons in E. injection E as E _.
      destruct d as [|p]; [done|].
      do 4 (destruct p as [p|p|]; try done); lia.
    + rewrite Et. unfold read_digits.
      by rewrite pretty_digits, leading_digits_stop.
  - intros Hne Hnd. unfold PORT.
    rewrite (proj2 (JsFacts.truthy_Some _) Hne). simpl Js.property_key.
    apply trim_start_forall in Hnd.
    assert (Hstop : ∀ r, string_forall (λ c, negb (is_digit c)) r = true →
                         read_digits false r = NaN
                         ∧ read_digits true r = NaN).
    { intros r Hr. unfold read_digits.
      rewrite leading_digits_stop; [done|].
      unfold no_digit_first. destruct r as [|c r]; [done|].
      simpl in *. by apply andb_true_iff in Hr as [-> _]. }
    destruct (parseInt10_cases s)
      as [(r & E & ->) | [(r & E & ->) | (-> & _ & _)]].
    + rewrite E in Hnd. simpl in Hnd. by apply Hstop.
    + rewrite E in Hnd. simpl in Hnd. by apply Hstop.
    + by apply Hstop.
Qed.

(** The premises of the theorems above, met on concrete inputs. *)

Lemma encodeURI_spec_witness :
  string_forall uri_unescaped "http://127.0.0.1:10809" = true
  ∧ encodeURI "http://127.0.0.1:10809" = "http://127.0.0.1:10809".
Proof.
  destruct (encodeURI_spec "http://127.0.0.1:10809" "") as (_ & _ & P & _).
  exact (conj eq_refl (P eq_refl)).
Defined.

Lemma getProxyUrl_spec_witness :
  let env := mkEnv None None (Some "") (Some "true") None None None in
  (USE_PROXY env = Some "true" ∧ Js.truthy (PROXY_URL env) = false)
  ∧ getProxyUrl (config env) = Some "http://127.0.0.1:10809".
Proof.
  intros env.
  destruct (getProxyUrl_spec env) as (_ & _ & P).
  exact (conj (conj eq_refl eq_refl) (P eq_refl eq_refl)).
Defined.

Lemma PORT_spec_witness :
  (white " " = true ∧ no_digit_first "abc" = true ∧ (8080 < 2 ^ 53)%N
   ∧ PORT (Some (" " +:+ pretty 8080%N +:+ "abc")) = Int 8080)
  ∧ ("http" ≠ ""
     ∧ string_forall (λ c, negb (is_digit c)) "http" = true
     ∧ PORT (Some "http") = NaN).
Proof.
  destruct (PORT_spec " " "abc" "http" 8080) as (_ & _ & P3 & P4).
  assert (H1 : (8080 < 2 ^ 53)%N) by reflexivity.
  assert (H2 : "http" ≠ "") by discriminate.
  exact (conj (conj eq_refl (conj eq_refl (conj H1 (P3 eq_refl eq_refl H1))))
              (conj H2 (conj eq_refl (P4 H2 eq_refl)))).
Defined.

End BootstrapProps.
